(** * Companies Directory: the query pipeline, the paginator, the filter
      options, the search debouncer and the data loader of
      [src/components/companies-directory.jsx], embedded and verified.

    The file has three layers.
    - [JS]: the parts of the ECMAScript library the component calls
      ([String.prototype.trim], [toLowerCase], [includes], [Array.prototype.slice],
      [sort], [Set], [Math.ceil]), as executable functions.
    - [Company], [filtered], [totalPages], [paginated], [locations],
      [industries], [fetchCompanies]: the component's own code, one definition
      per source binding, with the source's names.
    - [State], [Event], [step], [run]: the component as a transition system
      (one event handled, the state setters applied, and the effects whose
      dependencies changed run), for the claims about transitions.

    Strings are sequences of UTF-16 code units; the embedding covers the code
    units below 256 (one [ascii] each), where [trim] and [toLowerCase] are
    fully determined by ECMAScript.  [String.prototype.localeCompare] depends
    on the host's locale, so it is a parameter of the development. *)

From Stdlib Require Import List String Ascii ZArith NArith QArith Qround Lia Bool.
From Stdlib Require Import Sorted Permutation DecimalString DecimalPos DecimalZ.
Import ListNotations.

Local Open Scope string_scope.
Local Open Scope list_scope.
Local Open Scope Z_scope.

(** ** The ECMAScript library functions the component uses *)

Module JS.

(** [WhiteSpace] and [LineTerminator] code units below 256: TAB, LF, VT, FF,
    CR, SP and NBSP.  These are what [trim] strips. *)
Definition isWhiteSpace (c : ascii) : bool :=
  let n := N_of_ascii c in
  ((n =? 9) || (n =? 10) || (n =? 11) || (n =? 12) || (n =? 13)
   || (n =? 32) || (n =? 160))%N.

Fixpoint trimStart (s : string) : string :=
  match s with
  | EmptyString => EmptyString
  | String c s' => if isWhiteSpace c then trimStart s' else s
  end.

Fixpoint trimEnd (s : string) : string :=
  match s with
  | EmptyString => EmptyString
  | String c s' =>
      match trimEnd s' with
      | EmptyString => if isWhiteSpace c then EmptyString else String c EmptyString
      | t => String c t
      end
  end.

(** [s.trim()] *)
Definition trim (s : string) : string := trimEnd (trimStart s).

(** Lower-casing of one code unit below 256: A-Z, and the Latin-1 capitals
    U+00C0..U+00DE except the multiplication sign U+00D7, move up by 32. *)
Definition lowerUnit (c : ascii) : ascii :=
  let n := N_of_ascii c in
  if (((65 <=? n) && (n <=? 90))
      || ((192 <=? n) && (n <=? 222) && negb (n =? 215)))%N
  then ascii_of_N (n + 32) else c.

(** [s.toLowerCase()] *)
Fixpoint toLowerCase (s : string) : string :=
  match s with
  | EmptyString => EmptyString
  | String c s' => String (lowerUnit c) (toLowerCase s')
  end.

(** [s.includes(q)]: [q] occurs in [s] as a run of consecutive code units. *)
Fixpoint includes (s q : string) : bool :=
  String.prefix q s
  || match s with
     | EmptyString => false
     | String _ s' => includes s' q
     end.

(** [ToBoolean] of a string: only the empty string is falsy. *)
Definition truthy (s : string) : bool := negb (s =? "")%string.

(** [`${n}`] for an integer [n]. *)
Definition numberToString (n : Z) : string :=
  NilZero.string_of_int (Z.to_int n).

(** [a.slice(start, end)], with the relative indices of ECMAScript: a negative
    index counts from the end, and both are clamped to [0, length]. *)
Definition slice {A : Type} (a : list A) (start end_ : Z) : list A :=
  let len := Z.of_nat (List.length a) in
  let k := if start <? 0 then Z.max (len + start) 0 else Z.min start len in
  let final := if end_ <? 0 then Z.max (len + end_) 0 else Z.min end_ len in
  firstn (Z.to_nat (final - k)) (skipn (Z.to_nat k) a).

(** [a.slice()]: a fresh copy, so that the in-place [sort] below never
    touches the array held in the component's state. *)
Definition copy {A : Type} (a : list A) : list A :=
  slice a 0 (Z.of_nat (List.length a)).

(** [a.sort(cmp)].  ECMAScript requires the sort to be stable and, for a
    consistent comparator, leaves nothing else to the implementation: the
    result is then the one stable sorted arrangement ([sort_unique] below).
    It is modelled by the stable insertion sort: an element goes before the
    first later element [y] with [cmp x y <= 0]. *)
Fixpoint insert {A : Type} (cmp : A -> A -> Z) (x : A) (l : list A) : list A :=
  match l with
  | [] => [x]
  | y :: l' => if cmp x y <=? 0 then x :: l else y :: insert cmp x l'
  end.

Fixpoint sort {A : Type} (cmp : A -> A -> Z) (l : list A) : list A :=
  match l with
  | [] => []
  | x :: l' => insert cmp x (sort cmp l')
  end.

(** The comparison [a.sort()] uses when it is given no comparator: strings
    are compared code unit by code unit. *)
Definition defaultCompare (x y : string) : Z :=
  match String.compare x y with
  | Lt => -1
  | Eq => 0
  | Gt => 1
  end.

(** [Array.from(new Set(a))]: the distinct values of [a], each at the place
    of its first occurrence. *)
Definition setFrom (a : list string) : list string :=
  fold_left
    (fun acc x => if existsb (String.eqb x) acc then acc else acc ++ [x])
    a [].

(** [Math.ceil(n / d)] for integers [n] and [d]: the division is the real
    one. *)
Definition ceilDiv (n d : Z) : Z := Qceiling (inject_Z n / inject_Z d).

End JS.

(** ** The data model *)

Module Company.

(** A record of [/companies.json].  [description] is optional. *)
Record t : Type := mk {
  id : Z;
  name : string;
  industry : string;
  location : string;
  employees : Z;
  description : option string;
  website : string
}.

End Company.

(** A comparator is consistent when it orders its arguments as a total
    preorder does: this is what ECMAScript asks of the function passed to
    [sort], and what it guarantees of [localeCompare]. *)
Record consistent {A : Type} (cmp : A -> A -> Z) : Prop := {
  cmp_refl : forall a, cmp a a = 0;
  cmp_flip : forall a b, cmp a b < 0 <-> 0 < cmp b a;
  cmp_trans : forall a b c, cmp a b <= 0 -> cmp b c <= 0 -> cmp a c <= 0
}.

Definition PAGE_SIZE : Z := 8.

Section CompaniesDirectory.

(** [a.localeCompare(b)] of the host. *)
Variable localeCompare : string -> string -> Z.

(** [c.description && c.description.toLowerCase().includes(q)], as the
    truth value [filter] reads. *)
Definition descriptionMatches (q : string) (c : Company.t) : bool :=
  match Company.description c with
  | None => false
  | Some d => JS.truthy d && JS.includes (JS.toLowerCase d) q
  end.

(** The predicate of the search filter (source lines 69-72). *)
Definition searchMatches (q : string) (c : Company.t) : bool :=
  JS.includes (JS.toLowerCase (Company.name c)) q
  || descriptionMatches q c
  || (JS.truthy (Company.industry c)
      && JS.includes (JS.toLowerCase (Company.industry c)) q).

(** The four comparators of source lines 78-81. *)
Definition byNameAsc (a b : Company.t) : Z :=
  localeCompare (Company.name a) (Company.name b).
Definition byNameDesc (a b : Company.t) : Z :=
  localeCompare (Company.name b) (Company.name a).
Definition byEmployeesAsc (a b : Company.t) : Z :=
  Company.employees a - Company.employees b.
Definition byEmployeesDesc (a b : Company.t) : Z :=
  Company.employees b - Company.employees a.

(** [filtered] (source lines 64-84): each [let] is one statement of the
    source, rebinding [result]. *)
Definition filtered (companies : list Company.t)
    (debouncedSearch location industry sort : string) : list Company.t :=
  let result := JS.copy companies in
  let result :=
    if JS.truthy (JS.trim debouncedSearch) then
      let q := JS.toLowerCase (JS.trim debouncedSearch) in
      filter (searchMatches q) result
    else result in
  let result :=
    if negb (location =? "All")%string
    then filter (fun c => (Company.location c =? location)%string) result
    else result in
  let result :=
    if negb (industry =? "All")%string
    then filter (fun c => (Company.industry c =? industry)%string) result
    else result in
  let result :=
    if (sort =? "name-asc")%string then JS.sort byNameAsc result else result in
  let result :=
    if (sort =? "name-desc")%string then JS.sort byNameDesc result else result in
  let result :=
    if (sort =? "employees-asc")%string
    then JS.sort byEmployeesAsc result else result in
  let result :=
    if (sort =? "employees-desc")%string
    then JS.sort byEmployeesDesc result else result in
  result.

(** [totalPages] and [paginated] (source lines 87-88), as functions of the
    [filtered] array and the current page. *)
Definition totalPages (filtered : list Company.t) : Z :=
  Z.max 1 (JS.ceilDiv (Z.of_nat (List.length filtered)) PAGE_SIZE).

Definition paginated (filtered : list Company.t) (page : Z) : list Company.t :=
  JS.slice filtered ((page - 1) * PAGE_SIZE) (page * PAGE_SIZE).

(** The statements of [filtered] in two parts, for the theorems that speak of
    the array before and after the sort: lines 65-76 select, lines 78-81
    sort ([filtered_selected_sortBy] below shows that they compose to
    [filtered]). *)
Definition selected (companies : list Company.t)
    (debouncedSearch location industry : string) : list Company.t :=
  let result := JS.copy companies in
  let result :=
    if JS.truthy (JS.trim debouncedSearch) then
      let q := JS.toLowerCase (JS.trim debouncedSearch) in
      filter (searchMatches q) result
    else result in
  let result :=
    if negb (location =? "All")%string
    then filter (fun c => (Company.location c =? location)%string) result
    else result in
  let result :=
    if negb (industry =? "All")%string
    then filter (fun c => (Company.industry c =? industry)%string) result
    else result in
  result.

Definition sortBy (sort : string) (result : list Company.t) : list Company.t :=
  let result :=
    if (sort =? "name-asc")%string then JS.sort byNameAsc result else result in
  let result :=
    if (sort =? "name-desc")%string then JS.sort byNameDesc result else result in
  let result :=
    if (sort =? "employees-asc")%string
    then JS.sort byEmployeesAsc result else result in
  let result :=
    if (sort =? "employees-desc")%string
    then JS.sort byEmployeesDesc result else result in
  result.

(** ** The data loader (source lines 5-9 and 28-43) *)

(** What [res.json()] makes of the body of a response. *)
Inductive Body : Type :=
| Json (data : list Company.t)
| Malformed (message : string).

(** What the request to [/companies.json] comes to: [fetch] rejects (a
    network error, with the message of the error), or a response arrives. *)
Inductive FetchOutcome : Type :=
| Rejected (message : string)
| Responded (status : Z) (body : Body).

(** How a promise settles: with a value, or with an [Error] of the given
    message. *)
Inductive Settled (A : Type) : Type :=
| Fulfilled (value : A)
| Thrown (message : string).
Arguments Fulfilled {A} value.
Arguments Thrown {A} message.

(** [res.ok]: the status is in the range 200-299. *)
Definition ok (status : Z) : bool := (200 <=? status) && (status <=? 299).

Definition fetchCompanies (r : FetchOutcome) : Settled (list Company.t) :=
  match r with
  | Rejected message => Thrown message
  | Responded status body =>
      if negb (ok status)
      then Thrown ("Failed to load companies: " ++ JS.numberToString status)
      else match body with
           | Json data => Fulfilled data
           | Malformed message => Thrown message
           end
  end.

(** ** The component as a transition system *)

(** The pending timer of [setTimeout(() => setDebouncedSearch(search), 300)]:
    when it is due, and the [search] its callback closed over. *)
Record Timer : Type := { due : Z; captured : string }.

(** The state variables of the component (source lines 12-24), and what the
    runtime holds for it: the [mounted] flag of the fetch effect, the pending
    debounce timer, and the clock in milliseconds. *)
Record State : Type := {
  companies : list Company.t;
  loading : bool;
  error : option string;
  search : string;
  debouncedSearch : string;
  location : string;
  industry : string;
  sort : string;
  page : Z;
  mounted : bool;
  timer : option Timer;
  clock : Z
}.

Definition setCompanies (v : list Company.t) (s : State) : State :=
  {| companies := v; loading := loading s; error := error s;
     search := search s; debouncedSearch := debouncedSearch s;
     location := location s; industry := industry s; sort := sort s;
     page := page s; mounted := mounted s; timer := timer s; clock := clock s |}.
Definition setLoading (v : bool) (s : State) : State :=
  {| companies := companies s; loading := v; error := error s;
     search := search s; debouncedSearch := debouncedSearch s;
     location := location s; industry := industry s; sort := sort s;
     page := page s; mounted := mounted s; timer := timer s; clock := clock s |}.
Definition setError (v : option string) (s : State) : State :=
  {| companies := companies s; loading := loading s; error := v;
     search := search s; debouncedSearch := debouncedSearch s;
     location := location s; industry := industry s; sort := sort s;
     page := page s; mounted := mounted s; timer := timer s; clock := clock s |}.
Definition setSearch (v : string) (s : State) : State :=
  {| companies := companies s; loading := loading s; error := error s;
     search := v; debouncedSearch := debouncedSearch s;
     location := location s; industry := industry s; sort := sort s;
     page := page s; mounted := mounted s; timer := timer s; clock := clock s |}.
Definition setDebouncedSearch (v : string) (s : State) : State :=
  {| companies := companies s; loading := loading s; error := error s;
     search := search s; debouncedSearch := v;
     location := location s; industry := industry s; sort := sort s;
     page := page s; mounted := mounted s; timer := timer s; clock := clock s |}.
Definition setLocation (v : string) (s : State) : State :=
  {| companies := companies s; loading := loading s; error := error s;
     search := search s; debouncedSearch := debouncedSearch s;
     location := v; industry := industry s; sort := sort s;
     page := page s; mounted := mounted s; timer := timer s; clock := clock s |}.
Definition setIndustry (v : string) (s : State) : State :=
  {| companies := companies s; loading := loading s; error := error s;
     search := search s; debouncedSearch := debouncedSearch s;
     location := location s; industry := v; sort := sort s;
     page := page s; mounted := mounted s; timer := timer s; clock := clock s |}.
Definition setSort (v : string) (s : State) : State :=
  {| companies := companies s; loading := loading s; error := error s;
     search := search s; debouncedSearch := debouncedSearch s;
     location := location s; industry := industry s; sort := v;
     page := page s; mounted := mounted s; timer := timer s; clock := clock s |}.
Definition setPage (v : Z) (s : State) : State :=
  {| companies := companies s; loading := loading s; error := error s;
     search := search s; debouncedSearch := debouncedSearch s;
     location := location s; industry := industry s; sort := sort s;
     page := v; mounted := mounted s; timer := timer s; clock := clock s |}.
Definition setMounted (v : bool) (s : State) : State :=
  {| companies := companies s; loading := loading s; error := error s;
     search := search s; debouncedSearch := debouncedSearch s;
     location := location s; industry := industry s; sort := sort s;
     page := page s; mounted := v; timer := timer s; clock := clock s |}.
Definition setTimer (v : option Timer) (s : State) : State :=
  {| companies := companies s; loading := loading s; error := error s;
     search := search s; debouncedSearch := debouncedSearch s;
     location := location s; industry := industry s; sort := sort s;
     page := page s; mounted := mounted s; timer := v; clock := clock s |}.
Definition setClock (v : Z) (s : State) : State :=
  {| companies := companies s; loading := loading s; error := error s;
     search := search s; debouncedSearch := debouncedSearch s;
     location := location s; industry := industry s; sort := sort s;
     page := page s; mounted := mounted s; timer := timer s; clock := v |}.

(** What the user, the network and the clock do to the component. *)
Inductive Event : Type :=
| Typed (value : string)
| LocationChosen (value : string)
| IndustryChosen (value : string)
| SortChosen (value : string)
| PrevClicked
| NextClicked
| Elapsed (ms : Z)
| FetchSettled (r : FetchOutcome)
| Unmounted.

(** What the component does that is seen from outside its state: the request
    it sends, and each run of the debounce timer's callback. *)
Inductive Output : Type :=
| Fetch (url : string)
| DebouncedSearchSet (value : string).

(** The two effects with dependencies, run after the render that follows a
    state change; [old] is the state of the previous render.  An effect runs
    only when one of its dependencies differs. *)

(** Source lines 46-51, dependencies [[search]]: the cleanup of the previous
    run clears its timer, then a new timer is set. *)
Definition debounceEffect (old new : State) : State :=
  if (search old =? search new)%string then new
  else setTimer (Some {| due := clock new + 300; captured := search new |}) new.

(** Source lines 90-92, dependencies [[debouncedSearch, location, industry, sort]]. *)
Definition pageResetEffect (old new : State) : State :=
  if ((debouncedSearch old =? debouncedSearch new)
      && (location old =? location new)
      && (industry old =? industry new)
      && (sort old =? sort new))%string
  then new
  else setPage 1 new.

Definition runEffects (old new : State) : State :=
  pageResetEffect old (debounceEffect old new).

(** The array [filtered] of the render of state [s]. *)
Definition filteredOf (s : State) : list Company.t :=
  filtered (companies s) (debouncedSearch s) (location s) (industry s) (sort s).

(** The [.then] and [.catch] callbacks of the fetch effect (lines 32-41). *)
Definition settle (r : FetchOutcome) (s : State) : State :=
  match fetchCompanies r with
  | Fulfilled data =>
      if negb (mounted s) then s
      else setLoading false (setCompanies data s)
  | Thrown message =>
      if negb (mounted s) then s
      else setLoading false
             (setError (Some (if JS.truthy message then message
                              else "Unknown error")) s)
  end.

(** One event handled.  [Elapsed ms] lets [ms] milliseconds pass with no
    other event: a timer that has come due runs its callback.  The Prev and
    Next buttons are disabled on the first and on the last page; unmounting
    runs the cleanups (lines 42 and 50).  The state returned is the one the
    component settles in, once the effects have run: the render that is
    committed between a setter and the effects, with the new input and the
    page not yet reset, is not a state of this system. *)
Definition step (s : State) (e : Event) : State * list Output :=
  match e with
  | Typed value => (runEffects s (setSearch value s), [])
  | LocationChosen value => (runEffects s (setLocation value s), [])
  | IndustryChosen value => (runEffects s (setIndustry value s), [])
  | SortChosen value => (runEffects s (setSort value s), [])
  | PrevClicked =>
      if page s =? 1 then (s, [])
      else (setPage (Z.max 1 (page s - 1)) s, [])
  | NextClicked =>
      if page s =? totalPages (filteredOf s) then (s, [])
      else (setPage (Z.min (totalPages (filteredOf s)) (page s + 1)) s, [])
  | Elapsed ms =>
      let s1 := setClock (clock s + ms) s in
      match timer s1 with
      | Some t =>
          if due t <=? clock s1
          then (runEffects s (setDebouncedSearch (captured t) (setTimer None s1)),
                [DebouncedSearchSet (captured t)])
          else (s1, [])
      | None => (s1, [])
      end
  | FetchSettled r => (settle r s, [])
  | Unmounted => (setTimer None (setMounted false s), [])
  end.

(** A sequence of events handled in order, with all that was output. *)
Fixpoint run (s : State) (es : list Event) : State * list Output :=
  match es with
  | [] => (s, [])
  | e :: es' =>
      let (s1, out1) := step s e in
      let (s2, out2) := run s1 es' in
      (s2, out1 ++ out2)
  end.

(** The component once mounted (lines 12-24, and the effects run once): the
    request is out and the first debounce timer is set. *)
Definition initial : State :=
  {| companies := []; loading := true; error := None;
     search := ""; debouncedSearch := "";
     location := "All"; industry := "All"; sort := "name-asc";
     page := 1; mounted := true;
     timer := Some {| due := 300; captured := "" |}; clock := 0 |}.

Definition mount : State * list Output := (initial, [Fetch "/companies.json"]).

(** What is rendered (lines 94-113), as far as the results decide it: which
    of the three views, and in the directory view the companies of the
    page, the page and the number of pages.  The controls, which show the
    state variables as they are, are left out. *)
Inductive View : Type :=
| LoadingView
| ErrorView (message : string)
| DirectoryView (paginated : list Company.t) (page totalPages : Z).

Definition render (s : State) : View :=
  if loading s then LoadingView
  else match error s with
       | Some message =>
           if JS.truthy message then ErrorView message
           else DirectoryView (paginated (filteredOf s) (page s)) (page s)
                  (totalPages (filteredOf s))
       | None =>
           DirectoryView (paginated (filteredOf s) (page s)) (page s)
             (totalPages (filteredOf s))
       end.

End CompaniesDirectory.



(** [locations] and [industries] (source lines 54-61). *)
Definition locations (companies : list Company.t) : list string :=
  "All" :: JS.sort JS.defaultCompare (JS.setFrom (map Company.location companies)).

Definition industries (companies : list Company.t) : list string :=
  "All" :: JS.sort JS.defaultCompare (JS.setFrom (map Company.industry companies)).

(** ** The specification's side *)

Module Spec.

(** The four sort keys, and the value each has in the sort selector (source
    lines 148-151). *)
Inductive SortKey : Type := NameAsc | NameDesc | EmployeesAsc | EmployeesDesc.

Definition optionValue (k : SortKey) : string :=
  match k with
  | NameAsc => "name-asc"
  | NameDesc => "name-desc"
  | EmployeesAsc => "employees-asc"
  | EmployeesDesc => "employees-desc"
  end.

Section Pipeline.

Variable localeCompare : string -> string -> Z.

(** The comparator of a key: the name by the host's collation, the number
    of employees by its value, each in the key's direction. *)
Definition comparator (k : SortKey) (a b : Company.t) : Z :=
  match k with
  | NameAsc => localeCompare (Company.name a) (Company.name b)
  | NameDesc => localeCompare (Company.name b) (Company.name a)
  | EmployeesAsc => Company.employees a - Company.employees b
  | EmployeesDesc => Company.employees b - Company.employees a
  end.

(** Case-insensitive substring match of [text] against [field]. *)
Definition matchesText (text field : string) : bool :=
  JS.includes (JS.toLowerCase field) (JS.toLowerCase text).

(** The steps of the query pipeline in the specification's words: the search
    step matches the search text against name, description and industry
    whenever the text is not empty; the two filters are exact matches unless
    the filter is "All"; the sort is the stable sort by the key. *)
Definition searchStep (text : string) (cs : list Company.t) : list Company.t :=
  if (text =? "")%string then cs
  else filter (fun c =>
                 matchesText text (Company.name c)
                 || match Company.description c with
                    | Some d => matchesText text d
                    | None => false
                    end
                 || matchesText text (Company.industry c)) cs.

Definition locationStep (location : string) (cs : list Company.t) : list Company.t :=
  if (location =? "All")%string then cs
  else filter (fun c => (Company.location c =? location)%string) cs.

Definition industryStep (industry : string) (cs : list Company.t) : list Company.t :=
  if (industry =? "All")%string then cs
  else filter (fun c => (Company.industry c =? industry)%string) cs.

Definition sortStep (k : SortKey) (cs : list Company.t) : list Company.t :=
  JS.sort (comparator k) cs.

Definition queryPipeline (cs : list Company.t) (text location industry : string)
    (k : SortKey) : list Company.t :=
  sortStep k (industryStep industry (locationStep location (searchStep text cs))).

End Pipeline.

(** [out] keeps the order [l] gives to the elements that compare equal: for
    every [a], the elements equal to [a] under [cmp] come in the same
    sequence in both. *)
Definition stable {A : Type} (cmp : A -> A -> Z) (l out : list A) : Prop :=
  forall a, filter (fun b => cmp a b =? 0) out = filter (fun b => cmp a b =? 0) l.

(** [out] is a stable sort of [l] by [cmp]. *)
Definition stableSortOf {A : Type} (cmp : A -> A -> Z) (l out : list A) : Prop :=
  Permutation l out
  /\ StronglySorted (fun a b => cmp a b <= 0) out
  /\ stable cmp l out.

(** The lexicographic order of strings by code unit. *)
Inductive lexLe : string -> string -> Prop :=
| lexLe_empty : forall s, lexLe EmptyString s
| lexLe_head : forall c1 c2 s1 s2,
    (N_of_ascii c1 < N_of_ascii c2)%N -> lexLe (String c1 s1) (String c2 s2)
| lexLe_tail : forall c s1 s2,
    lexLe s1 s2 -> lexLe (String c s1) (String c s2).

(** Every code unit of [s] is white space. *)
Definition allWhiteSpace (s : string) : bool :=
  forallb JS.isWhiteSpace (list_ascii_of_string s).

(** [core] is [text] without its leading and trailing white space. *)
Definition trimmed (text core : string) : Prop :=
  exists pre post,
    text = (pre ++ core ++ post)%string
    /\ allWhiteSpace pre = true /\ allWhiteSpace post = true
    /\ (core = EmptyString
        \/ (exists c rest, core = String c rest /\ JS.isWhiteSpace c = false)
           /\ (exists init c, core = (init ++ String c EmptyString)%string
                              /\ JS.isWhiteSpace c = false)).

(** One of the four inputs of the query pipeline has another value in [new]
    than in [old]. *)
Definition inputsChanged (old new : State) : Prop :=
  debouncedSearch new <> debouncedSearch old
  \/ location new <> location old
  \/ industry new <> industry old
  \/ sort new <> sort old.

(** The integer a decimal numeral denotes. *)
Definition readNumber (numeral : string) : option Z :=
  option_map Z.of_int (NilZero.int_of_string numeral).


(** A burst of changes of the search box: a first value is typed, then each
    further value after a gap of some milliseconds. *)
Fixpoint burst (rest : list (Z * string)) : list Event :=
  match rest with
  | [] => []
  | (gap, value) :: rest' => Elapsed gap :: Typed value :: burst rest'
  end.

(** The last value of a burst that starts with [first]. *)
Fixpoint lastValue (first : string) (rest : list (Z * string)) : string :=
  match rest with
  | [] => first
  | (_, value) :: rest' => lastValue value rest'
  end.

(** Every gap of the burst is shorter than the 300 ms window, and every value
    typed differs from the one before it. *)
Fixpoint rapid (previous : string) (rest : list (Z * string)) : Prop :=
  match rest with
  | [] => True
  | (gap, value) :: rest' =>
      0 <= gap < 300 /\ value <> previous /\ rapid value rest'
  end.

End Spec.

(** ** Sample data, for the concrete runs below *)

Module Sample.

Definition acme : Company.t :=
  Company.mk 1 "Acme" "Software" "Pune" 120 None "https://acme.example".
Definition globex : Company.t :=
  Company.mk 2 "Globex" "Energy" "Delhi" 40 (Some "Tech for grids") "https://globex.example".
Definition initech : Company.t :=
  Company.mk 3 "Initech" "Software" "Pune" 40 (Some "") "https://initech.example".
Definition hooli : Company.t :=
  Company.mk 4 "hooli" "Software" "Delhi" 900 (Some "Search and more") "https://hooli.example".

Definition directory : list Company.t := [acme; globex; initech; hooli].

(** A host that collates by code unit. *)
Definition collate : string -> string -> Z := JS.defaultCompare.

(** The directory loaded, and the user on its second page. *)
Definition browsing : State :=
  setPage 2 (setLoading false (setCompanies (directory ++ directory ++ directory) initial)).

End Sample.

(** ** The events that can occur *)

(** The values of the sort selector, in the order of its options (source
    lines 148-151). *)
Definition sortOptions : list string :=
  ["name-asc"; "name-desc"; "employees-desc"; "employees-asc"]%string.

(** [q] occurs in [s]: some code units, then [q], then the rest. *)
Definition occursIn (q s : string) : Prop :=
  exists pre post, s = (pre ++ q ++ post)%string.

(** The key that sorts by the same field in the other direction. *)
Definition opposite (k : Spec.SortKey) : Spec.SortKey :=
  match k with
  | Spec.NameAsc => Spec.NameDesc
  | Spec.NameDesc => Spec.NameAsc
  | Spec.EmployeesAsc => Spec.EmployeesDesc
  | Spec.EmployeesDesc => Spec.EmployeesAsc
  end.

(** The user types in the search box, or time passes. *)
Definition typingOrWaiting (e : Event) : Prop :=
  match e with
  | Typed _ | Elapsed _ => True
  | _ => False
  end.

Section Admissible.

Variable localeCompare : string -> string -> Z.

(** The search box, the selectors and the buttons are rendered in the
    directory view only: the loading and the error view return before them
    (source lines 94-111). *)
Definition controlsShown (s : State) : bool :=
  match render localeCompare s with
  | DirectoryView _ _ _ => true
  | _ => false
  end.

(** When an event can occur.  The user acts on the controls that are
    rendered, and a selector offers the values of its options only; time
    does not run backwards; the request settles once, and [loading] is true
    until it has; a component is unmounted once. *)
Definition enabled (s : State) (e : Event) : Prop :=
  match e with
  | Typed _ | PrevClicked | NextClicked =>
      mounted s = true /\ controlsShown s = true
  | LocationChosen value =>
      mounted s = true /\ controlsShown s = true
      /\ In value (locations (companies s))
  | IndustryChosen value =>
      mounted s = true /\ controlsShown s = true
      /\ In value (industries (companies s))
  | SortChosen value =>
      mounted s = true /\ controlsShown s = true /\ In value sortOptions
  | Elapsed ms => 0 <= ms
  | FetchSettled _ => loading s = true
  | Unmounted => mounted s = true
  end.

(** Every event of the sequence can occur in the state it meets. *)
Fixpoint admissible (s : State) (es : list Event) : Prop :=
  match es with
  | [] => True
  | e :: es' => enabled s e /\ admissible (fst (step localeCompare s e)) es'
  end.

(** What holds of the component in every state it settles in. *)
Record invariant (s : State) : Prop := {
  inv_page : 1 <= page s <= totalPages (filteredOf localeCompare s);
  inv_loading :
    loading s = true ->
    page s = 1 /\ companies s = [] /\ error s = None
    /\ search s = EmptyString /\ debouncedSearch s = EmptyString
    /\ location s = "All"%string /\ industry s = "All"%string
    /\ sort s = "name-asc"%string;
  inv_timer :
    match timer s with
    | Some t => mounted s = true /\ captured t = search s /\ due t <= clock s + 300
    | None => mounted s = true -> debouncedSearch s = search s
    end;
  inv_location : In (location s) (locations (companies s));
  inv_industry : In (industry s) (industries (companies s));
  inv_sort : In (sort s) sortOptions
}.

End Admissible.

(** A session, for the concrete runs below: the directory arrives, the user
    goes to the second page, types, waits, and narrows by location. *)
Module Session.

Definition events : list Event :=
  [Elapsed 300;
   FetchSettled (Responded 200
                   (Json (Sample.directory ++ Sample.directory ++ Sample.directory)));
   NextClicked;
   Typed "so"; Elapsed 120; Typed "soft"; Elapsed 40;
   LocationChosen "Pune"].

End Session.

(** * Theorems *)

(** ** The library layer *)

Section SliceTheory.

Context {A : Type}.

Lemma slice_in_range (a : list A) (i j : nat) :
  (i <= j)%nat -> (j <= List.length a)%nat ->
  JS.slice a (Z.of_nat i) (Z.of_nat j) = firstn (j - i) (skipn i a).
Proof.
  intros Hij Hj. unfold JS.slice.
  destruct (Z.ltb_spec (Z.of_nat i) 0) as [Hn|_]; [lia|].
  destruct (Z.ltb_spec (Z.of_nat j) 0) as [Hn|_]; [lia|].
  rewrite !Z.min_l by lia.
  replace (Z.to_nat (Z.of_nat j - Z.of_nat i)) with (j - i)%nat by lia.
  now rewrite Nat2Z.id.
Qed.

(** [a.slice()] returns the elements of [a], all of them and in order. *)
Lemma copy_eq (a : list A) : JS.copy a = a.
Proof.
  unfold JS.copy. change 0 with (Z.of_nat 0).
  rewrite slice_in_range by lia.
  rewrite Nat.sub_0_r. simpl. apply firstn_all.
Qed.

(** A slice that starts within the array and ends at or after its end is
    the rest of the array. *)
Lemma slice_to_end (a : list A) (i : nat) (e : Z) :
  (i <= List.length a)%nat -> Z.of_nat (List.length a) <= e ->
  JS.slice a (Z.of_nat i) e = skipn i a.
Proof.
  intros Hi He. unfold JS.slice.
  destruct (Z.ltb_spec (Z.of_nat i) 0) as [Hn|_]; [lia|].
  destruct (Z.ltb_spec e 0) as [Hn|_]; [lia|].
  rewrite (Z.min_l (Z.of_nat i)) by lia. rewrite (Z.min_r e) by lia.
  rewrite Nat2Z.id. apply firstn_all2. rewrite length_skipn. lia.
Qed.

(** A slice that starts at or after the end of the array is empty. *)
Lemma slice_past_end (a : list A) (b e : Z) :
  Z.of_nat (List.length a) <= b -> b <= e -> JS.slice a b e = [].
Proof.
  intros Hb He. unfold JS.slice.
  destruct (Z.ltb_spec b 0) as [Hn|_]; [lia|].
  destruct (Z.ltb_spec e 0) as [Hn|_]; [lia|].
  rewrite !Z.min_r by lia.
  replace (Z.to_nat (Z.of_nat (List.length a) - Z.of_nat (List.length a)))
    with 0%nat by lia.
  reflexivity.
Qed.

End SliceTheory.

Section SortTheory.

Context {A : Type} (cmp : A -> A -> Z).

Lemma insert_perm (x : A) (l : list A) : Permutation (x :: l) (JS.insert cmp x l).
Proof.
  induction l as [|y l IH]; simpl.
  - apply Permutation_refl.
  - destruct (cmp x y <=? 0).
    + apply Permutation_refl.
    + eapply perm_trans; [apply perm_swap|]. now apply perm_skip.
Qed.

(** The sort rearranges: nothing is added, dropped or repeated. *)
Lemma sort_perm (l : list A) : Permutation l (JS.sort cmp l).
Proof.
  induction l as [|x l IH]; simpl.
  - constructor.
  - eapply perm_trans; [apply perm_skip, IH|]. apply insert_perm.
Qed.

Hypothesis Hcmp : consistent cmp.

Lemma cmp_total (a b : A) : cmp a b <= 0 \/ cmp b a <= 0.
Proof.
  destruct (Z_le_gt_dec (cmp a b) 0) as [H|H]; [now left|right].
  assert (cmp b a < 0) by (apply (cmp_flip cmp Hcmp); lia). lia.
Qed.

Lemma cmp_zero_sym (a b : A) : cmp a b = 0 -> cmp b a = 0.
Proof.
  intros H. pose proof (cmp_flip cmp Hcmp a b). pose proof (cmp_flip cmp Hcmp b a). lia.
Qed.

Lemma cmp_zero_of_le (a b : A) : cmp a b <= 0 -> cmp b a <= 0 -> cmp a b = 0.
Proof.
  intros H1 H2. pose proof (cmp_flip cmp Hcmp a b). lia.
Qed.

Lemma cmp_zero_trans (a b c : A) : cmp a b = 0 -> cmp b c = 0 -> cmp a c = 0.
Proof.
  intros H1 H2. apply cmp_zero_of_le.
  - apply (cmp_trans cmp Hcmp a b c); lia.
  - apply cmp_zero_sym in H1. apply cmp_zero_sym in H2.
    apply (cmp_trans cmp Hcmp c b a); lia.
Qed.

Lemma insert_sorted (x : A) (l : list A) :
  StronglySorted (fun a b => cmp a b <= 0) l ->
  StronglySorted (fun a b => cmp a b <= 0) (JS.insert cmp x l).
Proof.
  induction 1 as [|y l Hs IH Hy]; simpl.
  - repeat constructor.
  - destruct (Z.leb_spec (cmp x y) 0) as [Hxy|Hxy].
    + constructor; [now constructor|]. constructor; [assumption|].
      eapply Forall_impl; [|exact Hy]. intros z Hz.
      now apply (cmp_trans cmp Hcmp x y z).
    + constructor; [assumption|].
      eapply Permutation_Forall; [apply insert_perm|].
      constructor; [|assumption].
      destruct (cmp_total y x); [assumption|lia].
Qed.

(** The sorted array is in the comparator's order, every pair of it. *)
Lemma sort_sorted (l : list A) :
  StronglySorted (fun a b => cmp a b <= 0) (JS.sort cmp l).
Proof.
  induction l as [|x l IH]; simpl; [constructor|now apply insert_sorted].
Qed.

Lemma insert_class (a x : A) (l : list A) :
  filter (fun b => cmp a b =? 0) (JS.insert cmp x l)
  = filter (fun b => cmp a b =? 0) (x :: l).
Proof.
  induction l as [|y l IH]; [reflexivity|].
  cbn [JS.insert]. destruct (Z.leb_spec (cmp x y) 0) as [Hxy|Hxy]; [reflexivity|].
  cbn [filter] in *. rewrite IH.
  destruct (Z.eqb_spec (cmp a x) 0) as [Hax|Hax];
    destruct (Z.eqb_spec (cmp a y) 0) as [Hay|Hay]; try reflexivity.
  exfalso. apply cmp_zero_sym in Hax.
  pose proof (cmp_zero_trans x a y Hax Hay). lia.
Qed.

(** The sort is stable. *)
Lemma sort_stable (l : list A) : Spec.stable cmp l (JS.sort cmp l).
Proof.
  intros a. induction l as [|x l IH]; [reflexivity|].
  cbn [JS.sort]. rewrite insert_class. cbn [filter]. now rewrite IH.
Qed.

Lemma sort_stableSortOf (l : list A) : Spec.stableSortOf cmp l (JS.sort cmp l).
Proof.
  split; [apply sort_perm|]. split; [apply sort_sorted|apply sort_stable].
Qed.

Lemma sorted_stable_eq (l1 l2 : list A) :
  Permutation l1 l2 ->
  StronglySorted (fun a b => cmp a b <= 0) l1 ->
  StronglySorted (fun a b => cmp a b <= 0) l2 ->
  (forall a, filter (fun b => cmp a b =? 0) l1 = filter (fun b => cmp a b =? 0) l2) ->
  l1 = l2.
Proof.
  revert l2. induction l1 as [|a t1 IH]; intros l2 Hp Hs1 Hs2 Hf.
  - now apply Permutation_nil in Hp.
  - destruct l2 as [|b t2].
    { apply Permutation_sym, Permutation_nil in Hp. discriminate. }
    inversion Hs1 as [|? ? Hs1' Ha]; subst.
    inversion Hs2 as [|? ? Hs2' Hb]; subst.
    assert (Hab : cmp a b <= 0).
    { assert (Hin : In b (a :: t1))
        by (eapply Permutation_in; [apply Permutation_sym, Hp|now left]).
      destruct Hin as [->|Hin].
      - rewrite (cmp_refl cmp Hcmp). lia.
      - rewrite Forall_forall in Ha. now apply Ha. }
    assert (Hba : cmp b a <= 0).
    { assert (Hin : In a (b :: t2)) by (eapply Permutation_in; [apply Hp|now left]).
      destruct Hin as [->|Hin].
      - rewrite (cmp_refl cmp Hcmp). lia.
      - rewrite Forall_forall in Hb. now apply Hb. }
    pose proof (cmp_zero_of_le a b Hab Hba) as H0.
    assert (a = b) as <-.
    { specialize (Hf a). cbn [filter] in Hf.
      rewrite (cmp_refl cmp Hcmp), H0 in Hf. cbn in Hf. congruence. }
    f_equal. apply IH; try assumption.
    + now apply Permutation_cons_inv in Hp.
    + intros z. specialize (Hf z). cbn [filter] in Hf.
      destruct (cmp z a =? 0); congruence.
Qed.

(** For a consistent comparator there is one stable sorted arrangement of an
    array: whatever algorithm a host's [sort] runs, it returns what [JS.sort]
    returns. *)
Lemma sort_unique (l out : list A) :
  Spec.stableSortOf cmp l out -> out = JS.sort cmp l.
Proof.
  intros (Hp & Hs & Hst). apply sorted_stable_eq.
  - eapply perm_trans; [apply Permutation_sym, Hp|apply sort_perm].
  - assumption.
  - apply sort_sorted.
  - intros a. rewrite (Hst a). symmetry. apply sort_stable.
Qed.

End SortTheory.

(** ** Comparators *)

Lemma consistent_on {A B : Type} (f : A -> B) (cmp : B -> B -> Z) :
  consistent cmp -> consistent (fun a b => cmp (f a) (f b)).
Proof.
  intros [Hr Hf Ht]. split; intros.
  - apply Hr.
  - apply Hf.
  - eapply Ht; eassumption.
Qed.

Lemma consistent_flip {A : Type} (cmp : A -> A -> Z) :
  consistent cmp -> consistent (fun a b => cmp b a).
Proof.
  intros [Hr Hf Ht]. split; intros.
  - apply Hr.
  - apply Hf.
  - eapply Ht; eassumption.
Qed.

Lemma consistent_difference {A : Type} (f : A -> Z) :
  consistent (fun a b => f a - f b).
Proof. split; intros; lia. Qed.

Lemma comparator_consistent (localeCompare : string -> string -> Z) (k : Spec.SortKey) :
  consistent localeCompare -> consistent (Spec.comparator localeCompare k).
Proof.
  intros H. destruct k; unfold Spec.comparator.
  - apply (consistent_on Company.name localeCompare H).
  - apply (consistent_flip _ (consistent_on Company.name localeCompare H)).
  - apply (consistent_difference Company.employees).
  - apply (consistent_flip _ (consistent_difference Company.employees)).
Qed.

(** ** The comparison by code units *)

Lemma ascii_compare_refl (c : ascii) : Ascii.compare c c = Eq.
Proof. unfold Ascii.compare. apply N.compare_refl. Qed.

Lemma string_compare_refl (s : string) : String.compare s s = Eq.
Proof.
  induction s as [|c s IH]; [reflexivity|].
  simpl. now rewrite ascii_compare_refl.
Qed.

Lemma lexLe_of_compare (x y : string) :
  String.compare x y <> Gt -> Spec.lexLe x y.
Proof.
  revert y. induction x as [|c x IH]; intros [|d y] H; simpl in H.
  - constructor.
  - constructor.
  - congruence.
  - destruct (Ascii.compare c d) eqn:E.
    + apply Ascii.compare_eq_iff in E. subst d.
      apply Spec.lexLe_tail. now apply IH.
    + apply Spec.lexLe_head. unfold Ascii.compare in E.
      now apply N.compare_lt_iff in E.
    + congruence.
Qed.

Lemma compare_of_lexLe (x y : string) :
  Spec.lexLe x y -> String.compare x y <> Gt.
Proof.
  induction 1 as [s|c1 c2 s1 s2 Hlt|c s1 s2 H IH]; simpl.
  - destruct s; discriminate.
  - unfold Ascii.compare. apply N.compare_lt_iff in Hlt. rewrite Hlt. discriminate.
  - now rewrite ascii_compare_refl.
Qed.

(** [x] sorts at or before [y] by default exactly when [x] is
    lexicographically at most [y]. *)
Lemma defaultCompare_le_iff (x y : string) :
  JS.defaultCompare x y <= 0 <-> Spec.lexLe x y.
Proof.
  unfold JS.defaultCompare. split.
  - intros H. apply lexLe_of_compare. destruct (String.compare x y); [discriminate|discriminate|lia].
  - intros H. apply compare_of_lexLe in H. destruct (String.compare x y); [lia|lia|congruence].
Qed.

Lemma lexLe_trans (x y z : string) :
  Spec.lexLe x y -> Spec.lexLe y z -> Spec.lexLe x z.
Proof.
  intros H. revert z. induction H as [s|c1 c2 s1 s2 Hlt|c s1 s2 H IH]; intros z Hz.
  - constructor.
  - inversion Hz; subst.
    + apply Spec.lexLe_head. lia.
    + now apply Spec.lexLe_head.
  - inversion Hz; subst.
    + now apply Spec.lexLe_head.
    + apply Spec.lexLe_tail. now apply IH.
Qed.

Lemma defaultCompare_consistent : consistent JS.defaultCompare.
Proof.
  split.
  - intros a. unfold JS.defaultCompare. now rewrite string_compare_refl.
  - intros a b. unfold JS.defaultCompare. rewrite (String.compare_antisym b a).
    destruct (String.compare a b); simpl; lia.
  - intros a b c Hab Hbc. apply defaultCompare_le_iff.
    apply lexLe_trans with b; now apply defaultCompare_le_iff.
Qed.

Lemma defaultCompare_zero (x y : string) : JS.defaultCompare x y = 0 -> x = y.
Proof.
  unfold JS.defaultCompare. intros H. apply String.compare_eq_iff.
  destruct (String.compare x y); [reflexivity|lia|lia].
Qed.

(** ** The query pipeline *)

Lemma includes_empty_subject (q : string) :
  q <> EmptyString -> JS.includes EmptyString q = false.
Proof. destruct q; [congruence|reflexivity]. Qed.

Lemma toLowerCase_nonempty (s : string) :
  s <> EmptyString -> JS.toLowerCase s <> EmptyString.
Proof. destruct s; [congruence|discriminate]. Qed.

Lemma truthy_false_iff (s : string) : JS.truthy s = false <-> s = EmptyString.
Proof.
  unfold JS.truthy. destruct (String.eqb_spec s EmptyString); simpl; split; congruence.
Qed.

(** Guarding a match by the truthiness of the field changes nothing when
    the query is not empty: the empty field contains no such query. *)
Lemma guarded_includes (field q : string) :
  q <> EmptyString ->
  JS.truthy field && JS.includes (JS.toLowerCase field) q
  = JS.includes (JS.toLowerCase field) q.
Proof.
  intros Hq. destruct (JS.truthy field) eqn:E; [reflexivity|].
  apply truthy_false_iff in E. subst field. simpl JS.toLowerCase.
  now rewrite includes_empty_subject.
Qed.

Section PipelineTheory.

Variable localeCompare : string -> string -> Z.

Lemma filtered_selected_sortBy (cs : list Company.t) (text loc ind key : string) :
  filtered localeCompare cs text loc ind key
  = sortBy localeCompare key (selected cs text loc ind).
Proof. reflexivity. Qed.

(** With the value of one of the four options, exactly one of the four
    conditional sorts runs. *)
Lemma sortBy_optionValue (k : Spec.SortKey) (l : list Company.t) :
  sortBy localeCompare (Spec.optionValue k) l
  = JS.sort (Spec.comparator localeCompare k) l.
Proof. destruct k; reflexivity. Qed.

(** Whatever the sort key is, the sort step only rearranges. *)
Lemma sortBy_perm (key : string) (l : list Company.t) :
  Permutation l (sortBy localeCompare key l).
Proof.
  unfold sortBy.
  repeat match goal with
         | |- context [if ?b then _ else _] => destruct b
         end;
  repeat (eapply perm_trans; [|apply sort_perm]); apply Permutation_refl.
Qed.

Lemma searchMatches_spec (q : string) (c : Company.t) :
  q <> EmptyString ->
  searchMatches (JS.toLowerCase q) c
  = Spec.matchesText q (Company.name c)
    || match Company.description c with
       | Some d => Spec.matchesText q d
       | None => false
       end
    || Spec.matchesText q (Company.industry c).
Proof.
  intros Hq. apply toLowerCase_nonempty in Hq.
  unfold searchMatches, descriptionMatches, Spec.matchesText.
  rewrite (guarded_includes (Company.industry c)) by assumption.
  destruct (Company.description c) as [d|]; [|reflexivity].
  now rewrite (guarded_includes d) by assumption.
Qed.

Lemma selected_steps (cs : list Company.t) (text loc ind : string) :
  selected cs text loc ind
  = Spec.industryStep ind (Spec.locationStep loc (Spec.searchStep (JS.trim text) cs)).
Proof.
  unfold selected, Spec.industryStep, Spec.locationStep, Spec.searchStep.
  cbv zeta. rewrite copy_eq. unfold JS.truthy.
  destruct (String.eqb_spec (JS.trim text) EmptyString) as [E|E]; cbn [negb].
  - destruct (loc =? "All")%string, (ind =? "All")%string; reflexivity.
  - rewrite (filter_ext _ _ (fun c => searchMatches_spec (JS.trim text) c E)).
    destruct (loc =? "All")%string, (ind =? "All")%string; reflexivity.
Qed.

Lemma selected_incl (cs : list Company.t) (text loc ind : string) :
  incl (selected cs text loc ind) cs.
Proof.
  unfold selected. cbv zeta. rewrite copy_eq.
  repeat match goal with
         | |- context [if ?b then _ else _] => destruct b
         end;
  repeat (eapply incl_tran; [apply incl_filter|]); apply incl_refl.
Qed.

(** C1, as the claim states it, fails: for the search text of one blank the
    code returns the whole collection (the text is trimmed first, and an
    empty trimmed text means no search), while the pipeline of the
    specification matches the blank against the fields and returns nothing. *)
Lemma query_pipeline_blank_search :
  filtered Sample.collate [Sample.acme] " " "All" "All" "name-asc"
  <> Spec.queryPipeline Sample.collate [Sample.acme] " " "All" "All" Spec.NameAsc.
Proof.
  change ([Sample.acme] <> @nil Company.t). discriminate.
Qed.

(** C1 (amended): [filtered] is the pipeline of the specification run on the
    trimmed search text: the search step (a case-insensitive substring match
    of the trimmed text against name, description and industry, whenever the
    trimmed text is not empty), then the location filter unless "All", then
    the industry filter unless "All", then the sort by the selected key. *)
Theorem query_pipeline_order (cs : list Company.t) (text loc ind : string)
    (k : Spec.SortKey) :
  filtered localeCompare cs text loc ind (Spec.optionValue k)
  = Spec.queryPipeline localeCompare cs (JS.trim text) loc ind k.
Proof.
  rewrite filtered_selected_sortBy, sortBy_optionValue, selected_steps.
  reflexivity.
Qed.

(** C3: every company of the pipeline's output is a company of the
    collection, whatever the search text, the filters and the sort key. *)
Theorem filtered_subset (cs : list Company.t) (text loc ind key : string)
    (c : Company.t) :
  In c (filtered localeCompare cs text loc ind key) -> In c cs.
Proof.
  intros H. rewrite filtered_selected_sortBy in H.
  apply (selected_incl cs text loc ind).
  eapply Permutation_in; [apply Permutation_sym, sortBy_perm|exact H].
Qed.

Hypothesis localeCompare_consistent : consistent localeCompare.

(** C6: for each of the four sort keys, the output of the pipeline is a
    stable sort, by the comparator of the key, of the array the filters
    left: a rearrangement of it, in the comparator's order, in which the
    companies that compare equal keep the order they had. *)
Theorem filtered_stable_sort (k : Spec.SortKey) (cs : list Company.t)
    (text loc ind : string) :
  Spec.stableSortOf (Spec.comparator localeCompare k)
    (selected cs text loc ind)
    (filtered localeCompare cs text loc ind (Spec.optionValue k)).
Proof.
  rewrite filtered_selected_sortBy, sortBy_optionValue.
  apply sort_stableSortOf. now apply comparator_consistent.
Qed.

End PipelineTheory.

Lemma filtered_subset_witness : In Sample.hooli Sample.directory.
Proof.
  apply (filtered_subset Sample.collate Sample.directory "  SEARCH " "All"
           "Software" "employees-desc" Sample.hooli).
  vm_compute. left. reflexivity.
Defined.

Lemma filtered_stable_sort_witness :
  Spec.stableSortOf (Spec.comparator Sample.collate Spec.EmployeesAsc)
    Sample.directory [Sample.globex; Sample.initech; Sample.acme; Sample.hooli].
Proof.
  exact (filtered_stable_sort Sample.collate defaultCompare_consistent
           Spec.EmployeesAsc Sample.directory "" "All" "All").
Defined.

(** ** The paginator *)

Section PagesTheory.

Context {A : Type}.

Lemma slice_nat (a : list A) (i j : nat) :
  (i <= j)%nat ->
  JS.slice a (Z.of_nat i) (Z.of_nat j) = firstn (j - i) (skipn i a).
Proof.
  intros Hij.
  destruct (Nat.le_gt_cases j (List.length a)) as [Hj|Hj].
  - now apply slice_in_range.
  - destruct (Nat.le_gt_cases i (List.length a)) as [Hi|Hi].
    + rewrite slice_to_end by lia. symmetry. apply firstn_all2.
      rewrite length_skipn. lia.
    + rewrite slice_past_end by lia.
      rewrite skipn_all2 by lia. now rewrite firstn_nil.
Qed.

Lemma firstn_plus (a : list A) (m n : nat) :
  firstn m a ++ firstn n (skipn m a) = firstn (m + n) a.
Proof.
  revert a. induction m as [|m IH]; intros a; [reflexivity|].
  destruct a as [|x a]; simpl.
  - now rewrite firstn_nil.
  - now rewrite IH.
Qed.

(** The page of number [p] and size [size]: the slice the paginator takes. *)
Lemma pages_prefix (size : nat) (a : list A) (n : nat) :
  List.concat (map (fun p => JS.slice a ((Z.of_nat p - 1) * Z.of_nat size)
                                   (Z.of_nat p * Z.of_nat size))
              (seq 1 n))
  = firstn (n * size) a.
Proof.
  induction n as [|n IH]; [reflexivity|].
  rewrite seq_S, map_app, concat_app, IH. cbn [map List.concat Nat.add].
  rewrite app_nil_r.
  replace ((Z.of_nat (S n) - 1) * Z.of_nat size) with (Z.of_nat (n * size)) by lia.
  replace (Z.of_nat (S n) * Z.of_nat size) with (Z.of_nat (S n * size)) by lia.
  rewrite slice_nat by lia. rewrite firstn_plus. f_equal. lia.
Qed.

(** For every page size and every number of pages that covers the array,
    the pages in order, put end to end, are the array. *)
Lemma pages_concat (size : nat) (a : list A) (n : nat) :
  (List.length a <= n * size)%nat ->
  List.concat (map (fun p => JS.slice a ((Z.of_nat p - 1) * Z.of_nat size)
                                   (Z.of_nat p * Z.of_nat size))
              (seq 1 n))
  = a.
Proof. intros H. rewrite pages_prefix. now apply firstn_all2. Qed.

End PagesTheory.

Lemma ceilDiv_pos (n : Z) (d : positive) :
  JS.ceilDiv n (Z.pos d) = - ((- n) / Z.pos d).
Proof.
  unfold JS.ceilDiv, Qceiling, Qfloor. simpl.
  now rewrite Z.mul_1_r.
Qed.

(** [Math.ceil(n / d)] is the least integer [c] with [n <= d * c]. *)
Lemma ceilDiv_spec (n : Z) (d : positive) :
  Z.pos d * (JS.ceilDiv n (Z.pos d) - 1) < n <= Z.pos d * JS.ceilDiv n (Z.pos d).
Proof.
  rewrite ceilDiv_pos.
  pose proof (Z.div_mod (- n) (Z.pos d) ltac:(lia)) as E.
  pose proof (Z.mod_pos_bound (- n) (Z.pos d) ltac:(lia)) as B.
  nia.
Qed.

Lemma totalPages_bounds (l : list Company.t) :
  1 <= totalPages l /\ Z.of_nat (List.length l) <= PAGE_SIZE * totalPages l.
Proof.
  unfold totalPages, PAGE_SIZE.
  pose proof (ceilDiv_spec (Z.of_nat (List.length l)) 8). lia.
Qed.


Section TransitionTheory.

Variable localeCompare : string -> string -> Z.


Lemma filteredOf_setPage (v : Z) (s : State) :
  filteredOf localeCompare (setPage v s) = filteredOf localeCompare s.
Proof. reflexivity. Qed.

(** C4: [totalPages] is at least 1 for every array, the empty one included:
    it is the ceiling of length / 8, or 1 when that is less; and from a page
    [p] with [1 <= p <= totalPages], Prev leads to [max(1, p - 1)] and Next
    to [min(totalPages, p + 1)], both within [1, totalPages]. *)
Theorem paginator_bounds (l : list Company.t) (s : State) :
  (1 <= totalPages l
   /\ exists c, PAGE_SIZE * (c - 1) < Z.of_nat (List.length l) <= PAGE_SIZE * c
               /\ totalPages l = Z.max 1 c)
  /\ (1 <= page s <= totalPages (filteredOf localeCompare s) ->
      let prev := fst (step localeCompare s PrevClicked) in
      let next := fst (step localeCompare s NextClicked) in
      page prev = Z.max 1 (page s - 1)
      /\ page next = Z.min (totalPages (filteredOf localeCompare s)) (page s + 1)
      /\ 1 <= page prev <= totalPages (filteredOf localeCompare prev)
      /\ 1 <= page next <= totalPages (filteredOf localeCompare next)).
Proof.
  split.
  - split; [apply totalPages_bounds|].
    exists (JS.ceilDiv (Z.of_nat (List.length l)) PAGE_SIZE).
    split; [apply (ceilDiv_spec _ 8)|reflexivity].
  - intros Hp. cbv zeta. cbn [step].
    destruct (Z.eqb_spec (page s) 1) as [E1|E1];
      destruct (Z.eqb_spec (page s) (totalPages (filteredOf localeCompare s))) as [E2|E2];
      cbn [fst]; rewrite ?filteredOf_setPage; cbn [page setPage]; lia.
Qed.

Lemma debounceEffect_inputs (old new : State) :
  debouncedSearch (debounceEffect old new) = debouncedSearch new
  /\ location (debounceEffect old new) = location new
  /\ industry (debounceEffect old new) = industry new
  /\ sort (debounceEffect old new) = sort new
  /\ page (debounceEffect old new) = page new.
Proof. unfold debounceEffect. destruct (search old =? search new)%string; now cbn. Qed.

Lemma pageResetEffect_inputs (old new : State) :
  debouncedSearch (pageResetEffect old new) = debouncedSearch new
  /\ location (pageResetEffect old new) = location new
  /\ industry (pageResetEffect old new) = industry new
  /\ sort (pageResetEffect old new) = sort new.
Proof.
  unfold pageResetEffect.
  destruct (_ && _)%bool; now cbn.
Qed.

Lemma pageResetEffect_page (old new : State) :
  Spec.inputsChanged old new -> page (pageResetEffect old new) = 1.
Proof.
  unfold Spec.inputsChanged, pageResetEffect. intros H.
  destruct (String.eqb_spec (debouncedSearch old) (debouncedSearch new));
    destruct (String.eqb_spec (location old) (location new));
    destruct (String.eqb_spec (industry old) (industry new));
    destruct (String.eqb_spec (sort old) (sort new));
    cbn; try reflexivity.
  exfalso. intuition congruence.
Qed.

(** After the effects have run, the page is 1 whenever the new render has
    another value of an input than the previous one. *)
Lemma runEffects_page (old new : State) :
  Spec.inputsChanged old (runEffects old new) -> page (runEffects old new) = 1.
Proof.
  unfold runEffects. intros H. apply pageResetEffect_page.
  destruct (pageResetEffect_inputs old (debounceEffect old new)) as (E1 & E2 & E3 & E4).
  unfold Spec.inputsChanged in *. rewrite E1, E2, E3, E4 in H. exact H.
Qed.

(** C5: whatever the event, if the state it leads to has another value of
    the debounced search text, the location filter, the industry filter or
    the sort key, then its page is 1. *)
Theorem page_reset_on_input_change (s : State) (e : Event) :
  Spec.inputsChanged s (fst (step localeCompare s e)) ->
  page (fst (step localeCompare s e)) = 1.
Proof.
  destruct e; cbn [step fst];
    try (now apply runEffects_page).
  - destruct (page s =? 1); cbn; unfold Spec.inputsChanged; cbn; intuition congruence.
  - destruct (page s =? _); cbn; unfold Spec.inputsChanged; cbn; intuition congruence.
  - cbn [timer setClock]. destruct (timer s) as [t|].
    + destruct (due t <=? _); cbn [fst]; [now apply runEffects_page|].
      unfold Spec.inputsChanged; cbn; intuition congruence.
    + unfold Spec.inputsChanged; cbn; intuition congruence.
  - unfold settle. destruct (fetchCompanies r); destruct (mounted s);
      unfold Spec.inputsChanged; cbn; intuition congruence.
  - unfold Spec.inputsChanged; cbn; intuition congruence.
Qed.

End TransitionTheory.

Lemma paginator_bounds_witness :
  page (fst (step Sample.collate Sample.browsing PrevClicked)) = 1
  /\ page (fst (step Sample.collate Sample.browsing NextClicked)) = 2.
Proof.
  pose proof (paginator_bounds Sample.collate Sample.directory Sample.browsing) as [_ H].
  assert (Hp : 1 <= page Sample.browsing
               <= totalPages (filteredOf Sample.collate Sample.browsing))
    by (vm_compute; split; discriminate).
  destruct (H Hp) as (H1 & H2 & _). split; [exact H1|exact H2].
Defined.

Lemma page_reset_on_input_change_witness :
  page (fst (step Sample.collate Sample.browsing (SortChosen "employees-desc"))) = 1.
Proof.
  apply (page_reset_on_input_change Sample.collate Sample.browsing
           (SortChosen "employees-desc")).
  right. right. right. vm_compute. discriminate.
Defined.

(** ** The search debouncer *)

Section DebounceTheory.

Variable localeCompare : string -> string -> Z.

Lemma run_cons (s : State) (e : Event) (es : list Event) :
  run localeCompare s (e :: es)
  = (fst (run localeCompare (fst (step localeCompare s e)) es),
     snd (step localeCompare s e)
     ++ snd (run localeCompare (fst (step localeCompare s e)) es)).
Proof.
  cbn [run]. destruct (step localeCompare s e) as [s1 o1].
  cbn [fst snd]. now destruct (run localeCompare s1 es).
Qed.

Lemma run_app (s : State) (es1 es2 : list Event) :
  run localeCompare s (es1 ++ es2)
  = (fst (run localeCompare (fst (run localeCompare s es1)) es2),
     snd (run localeCompare s es1)
     ++ snd (run localeCompare (fst (run localeCompare s es1)) es2)).
Proof.
  revert s. induction es1 as [|e es1 IH]; intros s.
  - cbn. now destruct (run localeCompare s es2).
  - rewrite <- app_comm_cons, !run_cons, IH. cbn [fst snd].
    now rewrite app_assoc.
Qed.

(** A change of the search text clears the pending timer and sets a new one,
    300 ms from now, for the new text; nothing else changes. *)
Lemma step_typed_change (s : State) (v : string) :
  v <> search s ->
  step localeCompare s (Typed v)
  = (setTimer (Some {| due := clock s + 300; captured := v |}) (setSearch v s), []).
Proof.
  intros Hv. cbn [step]. unfold runEffects, debounceEffect. cbn [search setSearch].
  destruct (String.eqb_spec (search s) v) as [E|_]; [congruence|].
  unfold pageResetEffect. cbn. now rewrite !String.eqb_refl.
Qed.

(** Before the timer is due, time passes and nothing else happens. *)
Lemma step_elapsed_early (s : State) (t : Timer) (d : Z) :
  timer s = Some t -> clock s + d < due t ->
  step localeCompare s (Elapsed d) = (setClock (clock s + d) s, []).
Proof.
  intros Ht Hd. cbn [step]. cbn [timer setClock clock]. rewrite Ht.
  destruct (Z.leb_spec (due t) (clock s + d)); [lia|reflexivity].
Qed.

(** Once the timer is due its callback runs: the captured text becomes the
    debounced search text, and no timer is left. *)
Lemma step_elapsed_due (s : State) (t : Timer) (d : Z) :
  timer s = Some t -> due t <= clock s + d ->
  snd (step localeCompare s (Elapsed d)) = [DebouncedSearchSet (captured t)]
  /\ debouncedSearch (fst (step localeCompare s (Elapsed d))) = captured t
  /\ timer (fst (step localeCompare s (Elapsed d))) = None.
Proof.
  intros Ht Hd. cbn [step]. cbn [timer setClock clock]. rewrite Ht.
  destruct (Z.leb_spec (due t) (clock s + d)); [|lia]. cbn [fst snd].
  split; [reflexivity|]. unfold runEffects, debounceEffect. cbn [search setDebouncedSearch setTimer setClock].
  rewrite String.eqb_refl. unfold pageResetEffect.
  destruct (_ && _)%bool; now cbn.
Qed.

Lemma step_elapsed_idle (s : State) (d : Z) :
  timer s = None ->
  step localeCompare s (Elapsed d) = (setClock (clock s + d) s, []).
Proof. intros Ht. cbn [step]. cbn [timer setClock]. now rewrite Ht. Qed.

(** While the changes follow one another within the window, the one timer is
    each time replaced: nothing is propagated, and the timer that is left is
    the one of the last change. *)
Lemma burst_pending (rest : list (Z * string)) :
  forall (s : State) (v : string),
    search s = v ->
    timer s = Some {| due := clock s + 300; captured := v |} ->
    Spec.rapid v rest ->
    snd (run localeCompare s (Spec.burst rest)) = []
    /\ debouncedSearch (fst (run localeCompare s (Spec.burst rest))) = debouncedSearch s
    /\ timer (fst (run localeCompare s (Spec.burst rest)))
       = Some {| due := clock (fst (run localeCompare s (Spec.burst rest))) + 300;
                 captured := Spec.lastValue v rest |}.
Proof.
  induction rest as [|[gap value] rest IH]; intros s v Hs Ht Hr.
  - cbn. auto.
  - destruct Hr as (Hgap & Hval & Hr). cbn [Spec.burst Spec.lastValue].
    rewrite run_cons, (step_elapsed_early s _ gap Ht) by (cbn; lia).
    cbn [fst snd]. rewrite run_cons.
    rewrite step_typed_change by (cbn; congruence). cbn [fst snd app].
    specialize (IH (setTimer (Some {| due := clock (setClock (clock s + gap) s) + 300;
                                      captured := value |})
                      (setSearch value (setClock (clock s + gap) s))) value
                   eq_refl eq_refl Hr).
    exact IH.
Qed.

(** C7: when the search text changes, and changes again each time within
    300 ms of the change before, nothing reaches the query pipeline during
    the burst nor in the 300 ms after its last change; once 300 ms have
    passed without a change the text is propagated, once, and it is the last
    value typed. *)
Theorem debounce_last_value_once (s0 : State) (first : string)
    (rest : list (Z * string)) :
  first <> search s0 ->
  Spec.rapid first rest ->
  let typing := Typed first :: Spec.burst rest in
  (snd (run localeCompare s0 typing) = []
   /\ debouncedSearch (fst (run localeCompare s0 typing)) = debouncedSearch s0)
  /\ (forall d, 0 <= d < 300 ->
       snd (run localeCompare s0 (typing ++ [Elapsed d])) = []
       /\ debouncedSearch (fst (run localeCompare s0 (typing ++ [Elapsed d])))
          = debouncedSearch s0)
  /\ (forall d later, 300 <= d ->
       snd (run localeCompare s0 (typing ++ [Elapsed d; Elapsed later]))
       = [DebouncedSearchSet (Spec.lastValue first rest)]
       /\ debouncedSearch (fst (run localeCompare s0 (typing ++ [Elapsed d])))
          = Spec.lastValue first rest).
Proof.
  intros Hfirst Hrapid typing. subst typing.
  pose proof (step_typed_change s0 first Hfirst) as Hstep.
  set (s1 := setTimer (Some {| due := clock s0 + 300; captured := first |})
               (setSearch first s0)) in *.
  destruct (burst_pending rest s1 first eq_refl eq_refl Hrapid) as (Hout & Hdeb & Htimer).
  assert (Hrun : run localeCompare s0 (Typed first :: Spec.burst rest)
                 = (fst (run localeCompare s1 (Spec.burst rest)), [])).
  { rewrite run_cons, Hstep. cbn [fst snd app]. now rewrite Hout. }
  set (s2 := fst (run localeCompare s1 (Spec.burst rest))) in *.
  split; [|split].
  - rewrite Hrun. cbn [fst snd]. now rewrite Hdeb.
  - intros d Hd. rewrite run_app, Hrun. cbn [fst snd app].
    rewrite run_cons, (step_elapsed_early s2 _ d Htimer) by (cbn; lia).
    cbn. now rewrite Hdeb.
  - intros d later Hd.
    destruct (step_elapsed_due s2 _ d Htimer) as (Ho & Hv & Hn); [cbn; lia|].
    cbn [captured] in Ho, Hv. split.
    + rewrite run_app, Hrun. cbn [fst snd app].
      rewrite run_cons, Ho, run_cons, (step_elapsed_idle _ later Hn). reflexivity.
    + rewrite run_app, Hrun. cbn [fst snd app].
      rewrite run_cons. cbn [fst run]. exact Hv.
Qed.

End DebounceTheory.

Lemma debounce_last_value_once_witness :
  snd (run Sample.collate initial
         ([Typed "t"; Elapsed 100; Typed "te"; Elapsed 250; Typed "tech"]
          ++ [Elapsed 300; Elapsed 1000]))
  = [DebouncedSearchSet "tech"].
Proof.
  assert (H1 : "t"%string <> search initial) by (vm_compute; discriminate).
  assert (H2 : Spec.rapid "t" [(100, "te"%string); (250, "tech"%string)])
    by (cbn; repeat split; try lia; discriminate).
  destruct (debounce_last_value_once Sample.collate initial "t"
              [(100, "te"%string); (250, "tech"%string)] H1 H2) as (_ & _ & H).
  exact (proj1 (H 300 1000 ltac:(lia))).
Defined.

(** ** The data loader *)

(** The numeral in the message is the status: it reads back as it. *)
Lemma numberToString_read (n : Z) : Spec.readNumber (JS.numberToString n) = Some n.
Proof.
  unfold Spec.readNumber, JS.numberToString.
  rewrite NilZero.isi.
  - cbn [option_map]. now rewrite DecimalZ.of_to.
  - destruct n; cbn; try discriminate.
    intros [= H]. now apply Unsigned.to_uint_nonnil in H.
  - destruct n; cbn; try discriminate.
    intros [= H]. now apply Unsigned.to_uint_nonnil in H.
Qed.

Lemma ok_iff (status : Z) : ok status = true <-> 200 <= status <= 299.
Proof. unfold ok. rewrite andb_true_iff, !Z.leb_le. tauto. Qed.

Section LoaderTheory.

Variable localeCompare : string -> string -> Z.

Lemma settle_rejected (s : State) (message : string) :
  mounted s = true ->
  settle (Rejected message) s
  = setLoading false
      (setError (Some (if JS.truthy message then message else "Unknown error")) s).
Proof. intros Hm. unfold settle. cbn [fetchCompanies]. now rewrite Hm. Qed.

Lemma settle_not_ok (s : State) (status : Z) (body : Body) :
  mounted s = true -> status < 200 \/ 299 < status ->
  settle (Responded status body) s
  = setLoading false
      (setError (Some ("Failed to load companies: " ++ JS.numberToString status)%string) s).
Proof.
  intros Hm Hs. unfold settle. cbn [fetchCompanies].
  assert (E : ok status = false).
  { destruct (ok status) eqn:E; [|reflexivity]. apply ok_iff in E. lia. }
  now rewrite E, Hm.
Qed.

Lemma settle_ok (s : State) (status : Z) (data : list Company.t) :
  mounted s = true -> 200 <= status <= 299 ->
  settle (Responded status (Json data)) s = setLoading false (setCompanies data s).
Proof.
  intros Hm Hs. unfold settle. cbn [fetchCompanies].
  apply ok_iff in Hs. now rewrite Hs, Hm.
Qed.

Lemma settle_malformed (s : State) (status : Z) (message : string) :
  mounted s = true -> 200 <= status <= 299 ->
  settle (Responded status (Malformed message)) s
  = setLoading false
      (setError (Some (if JS.truthy message then message else "Unknown error")) s).
Proof.
  intros Hm Hs. unfold settle. cbn [fetchCompanies].
  apply ok_iff in Hs. now rewrite Hs, Hm.
Qed.

(** What a failure leaves: the error view with a message that is not empty
    (the error's own, when it has one), and the collection held untouched. *)
Lemma failure_shown (s : State) (message : string) :
  let s' := setLoading false
              (setError (Some (if JS.truthy message then message
                               else "Unknown error")) s) in
  exists shown,
    shown <> EmptyString
    /\ (message <> EmptyString -> shown = message)
    /\ error s' = Some shown
    /\ render localeCompare s' = ErrorView shown
    /\ companies s' = companies s.
Proof.
  cbv zeta.
  exists (if JS.truthy message then message else "Unknown error"%string).
  assert (Hshown : JS.truthy (if JS.truthy message then message
                              else "Unknown error"%string) = true)
    by (destruct (JS.truthy message) eqn:E; [exact E|reflexivity]).
  split; [|split; [|split; [|split]]].
  - intros E. rewrite E in Hshown. discriminate.
  - intros Hne. destruct (JS.truthy message) eqn:E; [reflexivity|].
    apply truthy_false_iff in E. contradiction.
  - reflexivity.
  - unfold render. cbn [loading error setLoading setError]. now rewrite Hshown.
  - reflexivity.
Qed.

(** C8 (amended): while the component is mounted and no error is set, the
    settling of the request has these outcomes and no other.  There is one
    error kind, the failure to load, with three causes.  A network error
    leads to the error view with a message that is not empty (the error's
    own, when it has one); a response outside 200-299 to the error view
    with "Failed to load companies: " and the status; a response within
    200-299 whose body does not parse to the error view with the message
    of the parser; in all three the collection held is untouched.  A
    response within 200-299 whose body parses leads to the directory view,
    with the parsed collection stored.  Whatever the outcome, nothing is
    requested again. *)
Theorem data_loader_outcomes (s : State) :
  mounted s = true ->
  error s = None ->
  (forall message,
      let s' := fst (step localeCompare s (FetchSettled (Rejected message))) in
      exists shown,
        shown <> EmptyString
        /\ (message <> EmptyString -> shown = message)
        /\ error s' = Some shown
        /\ render localeCompare s' = ErrorView shown
        /\ companies s' = companies s)
  /\ (forall status body,
      status < 200 \/ 299 < status ->
      let s' := fst (step localeCompare s (FetchSettled (Responded status body))) in
      exists numeral,
        Spec.readNumber numeral = Some status
        /\ error s' = Some ("Failed to load companies: " ++ numeral)%string
        /\ render localeCompare s'
           = ErrorView ("Failed to load companies: " ++ numeral)%string
        /\ companies s' = companies s)
  /\ (forall status message,
      200 <= status <= 299 ->
      let s' := fst (step localeCompare s
                       (FetchSettled (Responded status (Malformed message)))) in
      exists shown,
        shown <> EmptyString
        /\ (message <> EmptyString -> shown = message)
        /\ error s' = Some shown
        /\ render localeCompare s' = ErrorView shown
        /\ companies s' = companies s)
  /\ (forall status data,
      200 <= status <= 299 ->
      let s' := fst (step localeCompare s (FetchSettled (Responded status (Json data)))) in
      companies s' = data
      /\ loading s' = false
      /\ error s' = None
      /\ render localeCompare s'
         = DirectoryView (paginated (filteredOf localeCompare s') (page s')) (page s')
             (totalPages (filteredOf localeCompare s')))
  /\ (forall r, snd (step localeCompare s (FetchSettled r)) = []).
Proof.
  intros Hm He. split; [|split; [|split; [|split]]].
  - intros message. cbv zeta. cbn [step fst]. rewrite (settle_rejected s message Hm).
    apply failure_shown.
  - intros status body Hs. cbv zeta. cbn [step fst].
    rewrite (settle_not_ok s status body Hm Hs).
    exists (JS.numberToString status).
    split; [apply numberToString_read|].
    split; [reflexivity|]. split; reflexivity.
  - intros status message Hs. cbv zeta. cbn [step fst].
    rewrite (settle_malformed s status message Hm Hs).
    apply failure_shown.
  - intros status data Hs. cbv zeta. cbn [step fst].
    rewrite (settle_ok s status data Hm Hs).
    split; [reflexivity|]. split; [reflexivity|]. split; [exact He|].
    unfold render. cbn [loading error setLoading setCompanies]. now rewrite He.
  - reflexivity.
Qed.

End LoaderTheory.

(** C8, as the claim states it, fails: a response of status 200 whose body
    is not JSON (a server that answers with a page of HTML, say) is a 2xx
    response, and yet nothing is stored and the error view is shown: the
    rejection of [res.json()] (source line 8) reaches the [.catch] of
    lines 37-41. *)
Lemma response_200_not_json :
  companies (fst (step Sample.collate initial
                    (FetchSettled (Responded 200 (Malformed "Unexpected token <")))))
  = []
  /\ error (fst (step Sample.collate initial
                   (FetchSettled (Responded 200 (Malformed "Unexpected token <")))))
     = Some "Unexpected token <"%string
  /\ render Sample.collate
       (fst (step Sample.collate initial
               (FetchSettled (Responded 200 (Malformed "Unexpected token <")))))
     = ErrorView "Unexpected token <".
Proof. repeat split. Qed.

Lemma data_loader_outcomes_witness :
  (exists numeral,
      Spec.readNumber numeral = Some 404
      /\ render Sample.collate
           (fst (step Sample.collate initial (FetchSettled (Responded 404 (Json [])))))
         = ErrorView ("Failed to load companies: " ++ numeral)%string)
  /\ (exists shown,
        render Sample.collate
          (fst (step Sample.collate initial
                  (FetchSettled (Responded 200 (Malformed "Unexpected token <")))))
        = ErrorView shown)
  /\ render Sample.collate
       (fst (step Sample.collate initial
               (FetchSettled (Responded 200 (Json Sample.directory)))))
     = DirectoryView [Sample.acme; Sample.globex; Sample.initech; Sample.hooli] 1 1.
Proof.
  destruct (data_loader_outcomes Sample.collate initial eq_refl eq_refl)
    as (_ & Hbad & Hmal & Hok & _).
  split; [|split].
  - destruct (Hbad 404 (Json []) ltac:(lia)) as (numeral & Hn & _ & Hr & _).
    exists numeral. split; [exact Hn|exact Hr].
  - destruct (Hmal 200 "Unexpected token <"%string ltac:(lia))
      as (shown & _ & _ & _ & Hr & _).
    exists shown. exact Hr.
  - destruct (Hok 200 Sample.directory ltac:(lia)) as (_ & _ & _ & Hr).
    exact Hr.
Defined.

(** X5: a response within 200-299 whose body does not parse is an error
    too: the rejection of [res.json()] reaches the same [.catch]. *)
Theorem malformed_body_is_an_error (localeCompare : string -> string -> Z)
    (s : State) (status : Z) (message : string) :
  mounted s = true -> 200 <= status <= 299 -> message <> EmptyString ->
  render localeCompare
    (fst (step localeCompare s (FetchSettled (Responded status (Malformed message)))))
  = ErrorView message.
Proof.
  intros Hm Hs Hne. cbn [step fst]. unfold settle. cbn [fetchCompanies].
  apply ok_iff in Hs. rewrite Hs, Hm. cbn [negb]. unfold render. cbn.
  destruct (JS.truthy message) eqn:E.
  - now rewrite E.
  - apply truthy_false_iff in E. congruence.
Qed.

Lemma malformed_body_is_an_error_witness :
  render Sample.collate
    (fst (step Sample.collate initial
            (FetchSettled (Responded 200 (Malformed "Unexpected token <")))))
  = ErrorView "Unexpected token <".
Proof.
  apply (malformed_body_is_an_error Sample.collate initial 200 "Unexpected token <").
  - reflexivity.
  - lia.
  - discriminate.
Defined.

(** ** The filter options *)

Lemma setFrom_fold (a acc : list string) :
  NoDup acc ->
  NoDup (fold_left
           (fun acc x => if existsb (String.eqb x) acc then acc else acc ++ [x])
           a acc)
  /\ forall v,
      In v (fold_left
              (fun acc x => if existsb (String.eqb x) acc then acc else acc ++ [x])
              a acc)
      <-> In v acc \/ In v a.
Proof.
  revert acc. induction a as [|x a IH]; intros acc Hacc; cbn [fold_left].
  - split; [assumption|]. intros v. cbn. tauto.
  - destruct (existsb (String.eqb x) acc) eqn:E.
    + destruct (IH acc Hacc) as [Hn Hin]. split; [assumption|].
      intros v. rewrite Hin. cbn [In]. split; [tauto|].
      intros [H|[<-|H]]; auto.
      apply existsb_exists in E as (y & Hy & Exy).
      apply String.eqb_eq in Exy. subst y. auto.
    + assert (Hx : ~ In x acc).
      { intros Hx. assert (existsb (String.eqb x) acc = true); [|congruence].
        apply existsb_exists. exists x. split; [assumption|apply String.eqb_refl]. }
      assert (Hacc' : NoDup (acc ++ [x])).
      { apply NoDup_app; [assumption|repeat constructor; intros []|].
        intros y Hy [<-|[]]. contradiction. }
      destruct (IH (acc ++ [x]) Hacc') as [Hn Hin]. split; [assumption|].
      intros v. rewrite Hin, in_app_iff. cbn [In]. tauto.
Qed.

(** [Array.from(new Set(a))] has the values of [a], each once. *)
Lemma setFrom_spec (a : list string) :
  NoDup (JS.setFrom a) /\ forall v, In v (JS.setFrom a) <-> In v a.
Proof.
  destruct (setFrom_fold a [] (NoDup_nil _)) as [Hn Hin].
  split; [exact Hn|]. intros v. unfold JS.setFrom. rewrite Hin. cbn. tauto.
Qed.

Lemma StronglySorted_impl {A : Type} (R S : A -> A -> Prop) (l : list A) :
  (forall a b, R a b -> S a b) -> StronglySorted R l -> StronglySorted S l.
Proof.
  intros H. induction 1 as [|a l Hs IH Ha]; constructor; [assumption|].
  eapply Forall_impl; [|exact Ha]. intros b. apply H.
Qed.

(** An option list: the sentinel, then the distinct values of the field,
    sorted. *)
Lemma option_list (field : Company.t -> string) (cs : list Company.t) :
  let values := JS.sort JS.defaultCompare (JS.setFrom (map field cs)) in
  NoDup values
  /\ StronglySorted Spec.lexLe values
  /\ forall v, In v values <-> exists c, In c cs /\ field c = v.
Proof.
  cbv zeta. destruct (setFrom_spec (map field cs)) as [Hn Hin].
  pose proof (sort_perm JS.defaultCompare (JS.setFrom (map field cs))) as Hp.
  split; [|split].
  - eapply Permutation_NoDup; eassumption.
  - eapply StronglySorted_impl; [|apply sort_sorted, defaultCompare_consistent].
    intros a b. apply defaultCompare_le_iff.
  - intros v. split.
    + intros H. apply (Permutation_in _ (Permutation_sym Hp)) in H.
      apply Hin, in_map_iff in H as (c & Hc & Hcs). eauto.
    + intros (c & Hcs & Hc). apply (Permutation_in _ Hp).
      apply Hin, in_map_iff. eauto.
Qed.

(** C9: the location options are "All" followed by the distinct locations
    of the collection, none twice, in lexicographic order; and so are the
    industry options for the industries. *)
Theorem filter_option_lists (cs : list Company.t) :
  (exists values,
      locations cs = "All"%string :: values
      /\ NoDup values
      /\ StronglySorted Spec.lexLe values
      /\ forall v, In v values <-> exists c, In c cs /\ Company.location c = v)
  /\ (exists values,
      industries cs = "All"%string :: values
      /\ NoDup values
      /\ StronglySorted Spec.lexLe values
      /\ forall v, In v values <-> exists c, In c cs /\ Company.industry c = v).
Proof.
  split.
  - exists (JS.sort JS.defaultCompare (JS.setFrom (map Company.location cs))).
    split; [reflexivity|]. apply (option_list Company.location).
  - exists (JS.sort JS.defaultCompare (JS.setFrom (map Company.industry cs))).
    split; [reflexivity|]. apply (option_list Company.industry).
Qed.

(** ** Trimming of the search text *)

Lemma trimStart_spec (s : string) :
  exists pre,
    s = (pre ++ JS.trimStart s)%string
    /\ Spec.allWhiteSpace pre = true
    /\ (JS.trimStart s = EmptyString
        \/ exists c rest, JS.trimStart s = String c rest /\ JS.isWhiteSpace c = false).
Proof.
  induction s as [|c s (pre & Hs & Hpre & Hhead)].
  - exists EmptyString. cbn. auto.
  - cbn [JS.trimStart]. destruct (JS.isWhiteSpace c) eqn:E.
    + exists (String c pre). cbn [String.append]. split; [now rewrite <- Hs|].
      split; [|exact Hhead]. unfold Spec.allWhiteSpace in *. cbn. now rewrite E.
    + exists EmptyString. cbn. repeat split. right. eauto.
Qed.

Lemma trimEnd_spec (s : string) :
  exists post,
    s = (JS.trimEnd s ++ post)%string
    /\ Spec.allWhiteSpace post = true
    /\ (JS.trimEnd s = EmptyString
        \/ exists init c, JS.trimEnd s = (init ++ String c EmptyString)%string
                          /\ JS.isWhiteSpace c = false).
Proof.
  induction s as [|c s (post & Hs & Hpost & Hlast)].
  - exists EmptyString. cbn. auto.
  - cbn [JS.trimEnd]. destruct (JS.trimEnd s) as [|d t] eqn:Et.
    + cbn [String.append] in Hs. subst post.
      destruct (JS.isWhiteSpace c) eqn:E.
      * exists (String c s). cbn [String.append]. split; [reflexivity|].
        split; [|now left]. unfold Spec.allWhiteSpace in *. cbn. now rewrite E.
      * exists s. cbn [String.append]. repeat split; [assumption|].
        right. exists EmptyString, c. auto.
    + exists post. cbn [String.append]. split; [now rewrite Hs|].
      split; [assumption|]. right.
      destruct Hlast as [Hl|(init & e & Hl & He)]; [discriminate|].
      exists (String c init), e. cbn [String.append]. now rewrite Hl.
Qed.

Lemma trimEnd_head (c : ascii) (s : string) :
  JS.isWhiteSpace c = false -> exists r, JS.trimEnd (String c s) = String c r.
Proof.
  intros E. cbn [JS.trimEnd]. rewrite E. destruct (JS.trimEnd s); eauto.
Qed.

Lemma append_assoc (a b c : string) : ((a ++ b) ++ c = a ++ (b ++ c))%string.
Proof. induction a as [|x a IH]; cbn; [reflexivity|now rewrite IH]. Qed.

(** [s.trim()] is [s] without its leading and trailing white space. *)
Lemma trim_trimmed (text : string) : Spec.trimmed text (JS.trim text).
Proof.
  unfold JS.trim.
  destruct (trimStart_spec text) as (pre & Hs & Hpre & Hhead).
  destruct (trimEnd_spec (JS.trimStart text)) as (post & He & Hpost & Hlast).
  exists pre, post. split; [now rewrite <- He|]. split; [assumption|].
  split; [assumption|].
  destruct Hlast as [Hl|Hl]; [now left|right]. split; [|exact Hl].
  destruct Hhead as [Hh|(c & rest & Hh & Hc)].
  - rewrite Hh in Hl. destruct Hl as (init & e & Hl & _). cbn in Hl.
    destruct init; discriminate.
  - rewrite Hh. destruct (trimEnd_head c rest Hc) as (r & Hr). eauto.
Qed.

Lemma trim_allWhiteSpace (text : string) :
  Spec.allWhiteSpace text = true -> JS.trim text = EmptyString.
Proof.
  intros H. unfold JS.trim. assert (E : JS.trimStart text = EmptyString).
  { induction text as [|c s IH]; [reflexivity|].
    unfold Spec.allWhiteSpace in H. cbn in H. apply andb_true_iff in H as [Hc Hs].
    cbn [JS.trimStart]. rewrite Hc. now apply IH. }
  now rewrite E.
Qed.

Lemma trim_nonempty (text : string) :
  Spec.allWhiteSpace text = false -> JS.trim text <> EmptyString.
Proof.
  intros H. unfold JS.trim.
  assert (E : exists c rest, JS.trimStart text = String c rest
                             /\ JS.isWhiteSpace c = false).
  { induction text as [|c s IH]; [discriminate|].
    unfold Spec.allWhiteSpace in H. cbn in H. cbn [JS.trimStart].
    destruct (JS.isWhiteSpace c) eqn:Ec; [now apply IH|eauto]. }
  destruct E as (c & rest & E & Ec). rewrite E.
  destruct (trimEnd_head c rest Ec) as (r & Hr). rewrite Hr. discriminate.
Qed.

Lemma allWhiteSpace_app (a b : string) :
  Spec.allWhiteSpace (a ++ b)%string = Spec.allWhiteSpace a && Spec.allWhiteSpace b.
Proof.
  unfold Spec.allWhiteSpace. induction a as [|x a IH]; [reflexivity|].
  cbn in *. now rewrite IH, andb_assoc.
Qed.

Lemma ends_tail (x : ascii) (s : string) :
  (exists init c, String x s = (init ++ String c EmptyString)%string
                  /\ JS.isWhiteSpace c = false) ->
  s = EmptyString
  \/ exists init c, s = (init ++ String c EmptyString)%string
                    /\ JS.isWhiteSpace c = false.
Proof.
  intros ([|y init] & c & E & Hc); cbn in E; injection E as -> ->; eauto.
Qed.

Lemma ends_not_allWhiteSpace (s post : string) :
  (exists init c, s = (init ++ String c EmptyString)%string
                  /\ JS.isWhiteSpace c = false) ->
  Spec.allWhiteSpace (s ++ post)%string = false.
Proof.
  intros (init & c & -> & Hc). rewrite !allWhiteSpace_app.
  unfold Spec.allWhiteSpace at 2. cbn. rewrite Hc.
  now rewrite andb_false_r.
Qed.

Lemma leading_unique (pre1 pre2 : string) (c1 c2 : ascii) (r1 r2 : string) :
  (pre1 ++ String c1 r1 = pre2 ++ String c2 r2)%string ->
  Spec.allWhiteSpace pre1 = true -> Spec.allWhiteSpace pre2 = true ->
  JS.isWhiteSpace c1 = false -> JS.isWhiteSpace c2 = false ->
  String c1 r1 = String c2 r2.
Proof.
  revert pre2. induction pre1 as [|x pre1 IH]; intros [|y pre2] E H1 H2 Hc1 Hc2;
    cbn in E.
  - exact E.
  - injection E as -> _. unfold Spec.allWhiteSpace in H2. cbn in H2.
    apply andb_true_iff in H2 as [H2 _]. congruence.
  - injection E as -> _. unfold Spec.allWhiteSpace in H1. cbn in H1.
    apply andb_true_iff in H1 as [H1 _]. congruence.
  - injection E as _ E. unfold Spec.allWhiteSpace in H1, H2. cbn in H1, H2.
    apply andb_true_iff in H1 as [_ H1]. apply andb_true_iff in H2 as [_ H2].
    now apply (IH pre2).
Qed.

Lemma trailing_unique (a : string) :
  forall (b post1 post2 : string),
    (a ++ post1 = b ++ post2)%string ->
    Spec.allWhiteSpace post1 = true -> Spec.allWhiteSpace post2 = true ->
    (exists init c, a = (init ++ String c EmptyString)%string
                    /\ JS.isWhiteSpace c = false) ->
    (exists init c, b = (init ++ String c EmptyString)%string
                    /\ JS.isWhiteSpace c = false) ->
    a = b.
Proof.
  induction a as [|x a IH]; intros b post1 post2 E H1 H2 Ha Hb.
  - destruct Ha as ([|? ?] & c & Ha & _); discriminate.
  - destruct b as [|y b].
    { destruct Hb as ([|? ?] & c & Hb & _); discriminate. }
    cbn in E. injection E as -> E. f_equal.
    destruct (ends_tail _ _ Ha) as [->|Ha'], (ends_tail _ _ Hb) as [->|Hb'].
    + reflexivity.
    + cbn in E. subst post1.
      rewrite (ends_not_allWhiteSpace b post2 Hb') in H1. discriminate.
    + cbn in E. subst post2.
      rewrite (ends_not_allWhiteSpace a post1 Ha') in H2. discriminate.
    + now apply (IH b post1 post2).
Qed.

(** What is left of a text once its leading and trailing white space is
    removed is determined by the text. *)
Lemma trimmed_unique (text core1 core2 : string) :
  Spec.trimmed text core1 -> Spec.trimmed text core2 ->
  core1 <> EmptyString -> core2 <> EmptyString -> core1 = core2.
Proof.
  intros (pre1 & post1 & E1 & Hpre1 & Hpost1 & [?|[(c1 & r1 & Hc1 & Hw1) Hend1]])
         (pre2 & post2 & E2 & Hpre2 & Hpost2 & [?|[(c2 & r2 & Hc2 & Hw2) Hend2]])
         Hn1 Hn2; try contradiction.
  assert (E : (core1 ++ post1 = core2 ++ post2)%string).
  { rewrite E1 in E2. rewrite Hc1, Hc2 in E2 |- *. cbn [String.append] in E2 |- *.
    now apply (leading_unique pre1 pre2). }
  now apply (trailing_unique core1 core2 post1 post2).
Qed.

Lemma prefix_iff (q s : string) :
  String.prefix q s = true <-> exists post, s = (q ++ post)%string.
Proof.
  revert s. induction q as [|a q IH]; intros s.
  - destruct s; cbn; split; eauto.
  - destruct s as [|b s]; cbn.
    + split; [discriminate|]. intros (post & E). discriminate.
    + destruct (ascii_dec a b) as [<-|Hab].
      * rewrite IH. split; intros (post & E); exists post; congruence.
      * split; [discriminate|]. intros (post & E). congruence.
Qed.

(** [s.includes(q)] is true exactly when [q] occurs in [s]. *)
Lemma includes_iff (s q : string) : JS.includes s q = true <-> occursIn q s.
Proof.
  unfold occursIn. induction s as [|c s IH]; cbn [JS.includes].
  - rewrite orb_false_r, prefix_iff. split.
    + intros (post & E). exists EmptyString, post. exact E.
    + intros ([|? ?] & post & E); [eauto|discriminate].
  - rewrite orb_true_iff, prefix_iff, IH. split.
    + intros [(post & E)|(pre & post & E)].
      * exists EmptyString, post. exact E.
      * exists (String c pre), post. cbn. now rewrite E.
    + intros ([|d pre] & post & E).
      * left. exists post. exact E.
      * right. cbn in E. injection E as _ E. eauto.
Qed.

Lemma searchMatches_iff (q : string) (c : Company.t) :
  q <> EmptyString ->
  searchMatches q c = true
  <-> occursIn q (JS.toLowerCase (Company.name c))
      \/ (exists d, Company.description c = Some d /\ occursIn q (JS.toLowerCase d))
      \/ occursIn q (JS.toLowerCase (Company.industry c)).
Proof.
  intros Hq. unfold searchMatches, descriptionMatches.
  rewrite (guarded_includes (Company.industry c) q Hq).
  rewrite !orb_true_iff, !includes_iff.
  destruct (Company.description c) as [d|].
  - rewrite (guarded_includes d q Hq), includes_iff. split.
    + intros [[H|H]|H]; eauto.
    + intros [H|[(d' & [= <-] & H)|H]]; auto.
  - split.
    + intros [[H|H]|H]; auto. discriminate.
    + intros [H|[(d' & [=] & _)|H]]; auto.
Qed.

Section SearchTextTheory.

Variable localeCompare : string -> string -> Z.

Lemma selected_trim (cs : list Company.t) (text loc ind : string) :
  selected cs text loc ind
  = Spec.industryStep ind
      (Spec.locationStep loc
         (if JS.truthy (JS.trim text)
          then filter (searchMatches (JS.toLowerCase (JS.trim text))) cs
          else cs)).
Proof.
  unfold selected, Spec.industryStep, Spec.locationStep. cbv zeta. rewrite copy_eq.
  destruct (JS.truthy (JS.trim text)), (loc =? "All")%string, (ind =? "All")%string;
    reflexivity.
Qed.

(** C10: a search text that is white space only, empty or not, filters
    nothing: the output is what the two filters and the sort give on the
    whole collection, so with both filters on "All" every company is in it.
    A search text with other content is matched without its leading and
    trailing white space, and in lower case: with [core] the one text that
    trimming leaves, the output is what the case-insensitive search for
    [core], the two filters and the sort give, and with both filters on
    "All" a company is in it exactly when the lower-case [core] occurs in
    its lower-case name, description or industry. *)
Theorem search_text_is_trimmed (cs : list Company.t) (text loc ind key : string) :
  (Spec.allWhiteSpace text = true ->
   filtered localeCompare cs text loc ind key
   = sortBy localeCompare key (Spec.industryStep ind (Spec.locationStep loc cs))
   /\ forall c, In c cs -> In c (filtered localeCompare cs text "All" "All" key))
  /\ (Spec.allWhiteSpace text = false ->
      exists core,
        core <> EmptyString
        /\ Spec.trimmed text core
        /\ (forall core', core' <> EmptyString -> Spec.trimmed text core' -> core' = core)
        /\ filtered localeCompare cs text loc ind key
           = sortBy localeCompare key
               (Spec.industryStep ind
                  (Spec.locationStep loc (Spec.searchStep core cs)))
        /\ forall c,
            In c (filtered localeCompare cs text "All" "All" key)
            <-> In c cs
                /\ (occursIn (JS.toLowerCase core) (JS.toLowerCase (Company.name c))
                    \/ (exists d, Company.description c = Some d
                                  /\ occursIn (JS.toLowerCase core) (JS.toLowerCase d))
                    \/ occursIn (JS.toLowerCase core)
                                (JS.toLowerCase (Company.industry c)))).
Proof.
  split; intros H.
  - rewrite !filtered_selected_sortBy, !selected_trim.
    rewrite (trim_allWhiteSpace text H). cbn [JS.truthy String.eqb negb].
    split; [reflexivity|]. intros c Hc.
    eapply Permutation_in; [apply sortBy_perm|exact Hc].
  - exists (JS.trim text). pose proof (trim_nonempty text H) as Hne.
    split; [assumption|]. split; [apply trim_trimmed|].
    split.
    { intros core' Hne' Ht'. now apply (trimmed_unique text); [|apply trim_trimmed| |]. }
    split.
    { now rewrite filtered_selected_sortBy, selected_steps. }
    intros c. rewrite filtered_selected_sortBy.
    assert (Hperm : In c (sortBy localeCompare key (selected cs text "All" "All"))
                    <-> In c (selected cs text "All" "All")).
    { split; apply Permutation_in;
        [apply Permutation_sym, sortBy_perm|apply sortBy_perm]. }
    rewrite Hperm, selected_trim. unfold Spec.industryStep, Spec.locationStep.
    cbn [String.eqb Ascii.eqb Bool.eqb].
    assert (Et : JS.truthy (JS.trim text) = true).
    { destruct (JS.truthy (JS.trim text)) eqn:E; [reflexivity|].
      apply truthy_false_iff in E. contradiction. }
    rewrite Et, filter_In.
    rewrite (searchMatches_iff _ c (toLowerCase_nonempty _ Hne)). reflexivity.
Qed.

End SearchTextTheory.

Lemma search_text_is_trimmed_witness :
  filtered Sample.collate Sample.directory (String (ascii_of_N 9) "  ") "Pune" "All"
    "name-desc"
  = [Sample.initech; Sample.acme]
  /\ exists core,
      Spec.trimmed "  TeCh " core
      /\ filtered Sample.collate Sample.directory "  TeCh " "All" "All" "name-asc"
         = sortBy Sample.collate "name-asc" (Spec.searchStep core Sample.directory).
Proof.
  split.
  - destruct (search_text_is_trimmed Sample.collate Sample.directory
                (String (ascii_of_N 9) "  ") "Pune" "All" "name-desc") as [H _].
    exact (proj1 (H eq_refl)).
  - destruct (search_text_is_trimmed Sample.collate Sample.directory
                "  TeCh " "All" "All" "name-asc") as [_ H].
    destruct (H eq_refl) as (core & _ & Ht & _ & Hf & _).
    exists core. split; [exact Ht|exact Hf].
Defined.

(** ** Further properties *)

(** X1: for every page size of at least 1, with the number of pages computed
    as the source computes it for size 8, the pages put end to end are the
    array. *)
Theorem pages_of_any_size (l : list Company.t) (size : positive) :
  List.concat
    (map (fun p => JS.slice l ((Z.of_nat p - 1) * Z.pos size) (Z.of_nat p * Z.pos size))
         (seq 1 (Z.to_nat (Z.max 1 (JS.ceilDiv (Z.of_nat (List.length l)) (Z.pos size))))))
  = l.
Proof.
  rewrite <- (positive_nat_Z size).
  apply (pages_concat (Pos.to_nat size) l).
  rewrite positive_nat_Z.
  pose proof (ceilDiv_spec (Z.of_nat (List.length l)) size). nia.
Qed.

(** X2: for a consistent [localeCompare], the output of the pipeline is the
    only stable sort of what the filters left: a host whose [sort] runs
    another algorithm returns the same array. *)
Theorem filtered_is_the_stable_sort (localeCompare : string -> string -> Z)
    (k : Spec.SortKey) (cs : list Company.t) (text loc ind : string)
    (out : list Company.t) :
  consistent localeCompare ->
  Spec.stableSortOf (Spec.comparator localeCompare k) (selected cs text loc ind) out ->
  out = filtered localeCompare cs text loc ind (Spec.optionValue k).
Proof.
  intros Hc Hout. rewrite filtered_selected_sortBy, sortBy_optionValue.
  apply sort_unique; [now apply comparator_consistent|exact Hout].
Qed.

Lemma filtered_is_the_stable_sort_witness :
  [Sample.hooli; Sample.acme; Sample.globex; Sample.initech]
  = filtered Sample.collate Sample.directory "" "All" "All" "employees-desc".
Proof.
  apply (filtered_is_the_stable_sort Sample.collate Spec.EmployeesDesc
           Sample.directory "" "All" "All").
  - exact defaultCompare_consistent.
  - apply (sort_stableSortOf (Spec.comparator Sample.collate Spec.EmployeesDesc)
             (comparator_consistent Sample.collate Spec.EmployeesDesc
                defaultCompare_consistent)
             Sample.directory).
Defined.

(** X3: once the component is unmounted, the settling of the request
    changes nothing. *)
Theorem unmounted_ignores_fetch (localeCompare : string -> string -> Z)
    (s : State) (r : FetchOutcome) :
  mounted s = false ->
  step localeCompare s (FetchSettled r) = (s, []).
Proof.
  intros Hm. cbn [step]. unfold settle. rewrite Hm.
  now destruct (fetchCompanies r).
Qed.

Lemma unmounted_ignores_fetch_witness :
  step Sample.collate (setMounted false initial)
    (FetchSettled (Responded 200 (Json Sample.directory)))
  = (setMounted false initial, []).
Proof.
  apply (unmounted_ignores_fetch Sample.collate (setMounted false initial)).
  reflexivity.
Defined.

Lemma idle_outputs_nothing (localeCompare : string -> string -> Z) (ds : list Z) :
  forall s, timer s = None -> snd (run localeCompare s (map Elapsed ds)) = [].
Proof.
  induction ds as [|d ds IH]; intros s Hs; [reflexivity|].
  cbn [map]. rewrite run_cons, (step_elapsed_idle localeCompare s d Hs).
  cbn [fst snd app]. now apply IH.
Qed.

(** X4: unmounting clears the debounce timer: however the time passes
    afterwards, nothing is propagated. *)
Theorem unmount_cancels_debounce (localeCompare : string -> string -> Z)
    (s : State) (ds : list Z) :
  snd (run localeCompare s (Unmounted :: map Elapsed ds)) = [].
Proof.
  rewrite run_cons. cbn [step fst snd app].
  now apply idle_outputs_nothing.
Qed.

(** ** What holds in every reachable state *)

Section InvariantTheory.

Variable localeCompare : string -> string -> Z.

(** The effects touch the page and the timer, and nothing else. *)
Lemma runEffects_frame (old new : State) :
  companies (runEffects old new) = companies new
  /\ loading (runEffects old new) = loading new
  /\ error (runEffects old new) = error new
  /\ search (runEffects old new) = search new
  /\ debouncedSearch (runEffects old new) = debouncedSearch new
  /\ location (runEffects old new) = location new
  /\ industry (runEffects old new) = industry new
  /\ sort (runEffects old new) = sort new
  /\ mounted (runEffects old new) = mounted new
  /\ clock (runEffects old new) = clock new.
Proof.
  unfold runEffects, pageResetEffect, debounceEffect.
  destruct (search old =? search new)%string; cbn;
    match goal with |- context [if ?b then _ else _] => destruct b end;
    cbn; repeat split.
Qed.

Lemma runEffects_timer (old new : State) :
  timer (runEffects old new)
  = if (search old =? search new)%string then timer new
    else Some {| due := clock new + 300; captured := search new |}.
Proof.
  unfold runEffects, pageResetEffect, debounceEffect.
  destruct (search old =? search new)%string; cbn;
    match goal with |- context [if ?b then _ else _] => destruct b end;
    reflexivity.
Qed.

(** After the effects the page is 1, or it is the page of the render and
    no input of the pipeline has changed. *)
Lemma runEffects_page_cases (old new : State) :
  page (runEffects old new) = 1
  \/ (page (runEffects old new) = page new
      /\ debouncedSearch new = debouncedSearch old
      /\ location new = location old
      /\ industry new = industry old
      /\ sort new = sort old).
Proof.
  unfold runEffects, pageResetEffect.
  destruct (debounceEffect_inputs old new) as (E1 & E2 & E3 & E4 & E5).
  rewrite E1, E2, E3, E4.
  destruct (String.eqb_spec (debouncedSearch old) (debouncedSearch new));
    destruct (String.eqb_spec (location old) (location new));
    destruct (String.eqb_spec (industry old) (industry new));
    destruct (String.eqb_spec (sort old) (sort new));
    cbn; auto.
  right. rewrite E5. auto.
Qed.

Lemma filteredOf_runEffects (old new : State) :
  filteredOf localeCompare (runEffects old new) = filteredOf localeCompare new.
Proof.
  destruct (runEffects_frame old new) as (E1 & _ & _ & _ & E2 & E3 & E4 & E5 & _).
  unfold filteredOf. now rewrite E1, E2, E3, E4, E5.
Qed.

(** A state change that leaves the collection alone keeps the page within
    the pages of the new render: the page is reset, or nothing the pages
    depend on has changed. *)
Lemma runEffects_page_in_range (old new : State) :
  companies new = companies old -> page new = page old ->
  1 <= page old <= totalPages (filteredOf localeCompare old) ->
  1 <= page (runEffects old new)
    <= totalPages (filteredOf localeCompare (runEffects old new)).
Proof.
  intros Hc Hp Hr. rewrite filteredOf_runEffects.
  destruct (runEffects_page_cases old new) as [E|(E & E1 & E2 & E3 & E4)].
  - rewrite E. pose proof (totalPages_bounds (filteredOf localeCompare new)). lia.
  - rewrite E, Hp. unfold filteredOf in *. now rewrite Hc, E1, E2, E3, E4.
Qed.

Lemma controlsShown_loading (s : State) :
  controlsShown localeCompare s = true -> loading s = false.
Proof.
  unfold controlsShown, render. destruct (loading s); [discriminate|reflexivity].
Qed.

Lemma step_page_in_range (s : State) (e : Event) :
  invariant localeCompare s -> enabled localeCompare s e ->
  1 <= page (fst (step localeCompare s e))
    <= totalPages (filteredOf localeCompare (fst (step localeCompare s e))).
Proof.
  intros [Hp Hl _ _ _ _] He.
  destruct e; cbn [step fst];
    try (apply runEffects_page_in_range; [reflexivity|reflexivity|exact Hp]).
  - destruct (Z.eqb_spec (page s) 1); cbn [fst]; [exact Hp|].
    rewrite filteredOf_setPage. cbn [page setPage]. lia.
  - destruct (Z.eqb_spec (page s) (totalPages (filteredOf localeCompare s)));
      cbn [fst]; [exact Hp|].
    rewrite filteredOf_setPage. cbn [page setPage]. lia.
  - cbn [timer setClock]. destruct (timer s) as [t|]; [|exact Hp].
    destruct (due t <=? _); cbn [fst]; [|exact Hp].
    apply runEffects_page_in_range; [reflexivity|reflexivity|exact Hp].
  - cbn in He. destruct (Hl He) as (E & _). unfold settle.
    destruct (fetchCompanies r), (mounted s); cbn [negb]; try exact Hp.
    pose proof (totalPages_bounds
                  (filteredOf localeCompare (setLoading false (setCompanies value s)))).
    cbn [page setLoading setCompanies]. lia.
  - exact Hp.
Qed.

Lemma step_loading_user (s n : State) :
  controlsShown localeCompare s = true -> loading n = loading s ->
  loading (runEffects s n) = true -> False.
Proof.
  intros Hc Hn H. apply controlsShown_loading in Hc.
  destruct (runEffects_frame s n) as (_ & E & _). congruence.
Qed.

(** While the component is loading nothing has happened to it yet. *)
Lemma step_still_loading (s : State) (e : Event) :
  invariant localeCompare s -> enabled localeCompare s e ->
  loading (fst (step localeCompare s e)) = true ->
  page (fst (step localeCompare s e)) = 1
  /\ companies (fst (step localeCompare s e)) = []
  /\ error (fst (step localeCompare s e)) = None
  /\ search (fst (step localeCompare s e)) = EmptyString
  /\ debouncedSearch (fst (step localeCompare s e)) = EmptyString
  /\ location (fst (step localeCompare s e)) = "All"%string
  /\ industry (fst (step localeCompare s e)) = "All"%string
  /\ sort (fst (step localeCompare s e)) = "name-asc"%string.
Proof.
  intros [_ Hl Ht _ _ _] He.
  destruct e; cbn [step fst]; cbn [enabled] in He.
  - intros H. exfalso. now apply (step_loading_user s (setSearch value s)).
  - intros H. exfalso. now apply (step_loading_user s (setLocation value s)).
  - intros H. exfalso. now apply (step_loading_user s (setIndustry value s)).
  - intros H. exfalso. now apply (step_loading_user s (setSort value s)).
  - destruct He as [_ Hc]. apply controlsShown_loading in Hc.
    destruct (page s =? 1); cbn; congruence.
  - destruct He as [_ Hc]. apply controlsShown_loading in Hc.
    destruct (page s =? _); cbn; congruence.
  - cbn [timer setClock]. destruct (timer s) as [t|]; [|exact Hl].
    destruct (due t <=? _); cbn [fst]; [|exact Hl].
    destruct Ht as (_ & Hcap & _).
    set (n := setDebouncedSearch (captured t) (setTimer None (setClock (clock s + ms) s))).
    destruct (runEffects_frame s n) as (E1 & E2 & E3 & E4 & E5 & E6 & E7 & E8 & _).
    rewrite E1, E2, E3, E4, E5, E6, E7, E8. subst n. cbn.
    intros H. destruct (Hl H) as (P1 & P2 & P3 & P4 & P5 & P6 & P7 & P8).
    repeat split; try assumption; try congruence.
    destruct (runEffects_page_cases s
                (setDebouncedSearch (captured t)
                   (setTimer None (setClock (clock s + ms) s))))
      as [E|(E & _)]; [exact E|]. rewrite E. exact P1.
  - unfold settle. destruct (fetchCompanies r), (mounted s); cbn [negb];
      try exact Hl; cbn; discriminate.
  - exact Hl.
Qed.

Lemma step_timer (s : State) (e : Event) :
  invariant localeCompare s -> enabled localeCompare s e ->
  match timer (fst (step localeCompare s e)) with
  | Some t =>
      mounted (fst (step localeCompare s e)) = true
      /\ captured t = search (fst (step localeCompare s e))
      /\ due t <= clock (fst (step localeCompare s e)) + 300
  | None =>
      mounted (fst (step localeCompare s e)) = true ->
      debouncedSearch (fst (step localeCompare s e))
      = search (fst (step localeCompare s e))
  end.
Proof.
  intros [_ _ Ht _ _ _] He.
  destruct e; cbn [step fst]; cbn [enabled] in He.
  - rewrite runEffects_timer.
    destruct (runEffects_frame s (setSearch value s))
      as (_ & _ & _ & E4 & E5 & _ & _ & _ & E9 & E10).
    rewrite E4, E5, E9, E10. cbn.
    destruct (String.eqb_spec (search s) value) as [<-|_].
    + exact Ht.
    + cbn. destruct He as [Hm _]. repeat split; [exact Hm|lia].
  - rewrite runEffects_timer.
    destruct (runEffects_frame s (setLocation value s))
      as (_ & _ & _ & E4 & E5 & _ & _ & _ & E9 & E10).
    rewrite E4, E5, E9, E10. cbn. rewrite String.eqb_refl. exact Ht.
  - rewrite runEffects_timer.
    destruct (runEffects_frame s (setIndustry value s))
      as (_ & _ & _ & E4 & E5 & _ & _ & _ & E9 & E10).
    rewrite E4, E5, E9, E10. cbn. rewrite String.eqb_refl. exact Ht.
  - rewrite runEffects_timer.
    destruct (runEffects_frame s (setSort value s))
      as (_ & _ & _ & E4 & E5 & _ & _ & _ & E9 & E10).
    rewrite E4, E5, E9, E10. cbn. rewrite String.eqb_refl. exact Ht.
  - destruct (page s =? 1); exact Ht.
  - destruct (page s =? _); exact Ht.
  - cbn [timer setClock]. destruct (timer s) as [t|] eqn:Et.
    + destruct Ht as (Hm & Hcap & Hdue).
      destruct (due t <=? _); cbn [fst].
      * rewrite runEffects_timer.
        destruct (runEffects_frame s
                    (setDebouncedSearch (captured t)
                       (setTimer None (setClock (clock s + ms) s))))
          as (_ & _ & _ & E4 & E5 & _ & _ & _ & E9 & _).
        rewrite E4, E5, E9. cbn. rewrite String.eqb_refl. intros _. exact Hcap.
      * cbn. rewrite Et. repeat split; [exact Hm|exact Hcap|lia].
    + cbn. rewrite Et. exact Ht.
  - unfold settle. destruct (fetchCompanies r), (negb (mounted s)); exact Ht.
  - cbn. discriminate.
Qed.

Lemma step_selection (s : State) (e : Event) :
  invariant localeCompare s -> enabled localeCompare s e ->
  In (location (fst (step localeCompare s e)))
     (locations (companies (fst (step localeCompare s e))))
  /\ In (industry (fst (step localeCompare s e)))
        (industries (companies (fst (step localeCompare s e))))
  /\ In (sort (fst (step localeCompare s e))) sortOptions.
Proof.
  intros [_ Hl _ H1 H2 H3] He.
  destruct e; cbn [step fst]; cbn [enabled] in He.
  - destruct (runEffects_frame s (setSearch value s))
      as (E1 & _ & _ & _ & _ & E6 & E7 & E8 & _).
    rewrite E1, E6, E7, E8. cbn. auto.
  - destruct (runEffects_frame s (setLocation value s))
      as (E1 & _ & _ & _ & _ & E6 & E7 & E8 & _).
    rewrite E1, E6, E7, E8. cbn. intuition.
  - destruct (runEffects_frame s (setIndustry value s))
      as (E1 & _ & _ & _ & _ & E6 & E7 & E8 & _).
    rewrite E1, E6, E7, E8. cbn. intuition.
  - destruct (runEffects_frame s (setSort value s))
      as (E1 & _ & _ & _ & _ & E6 & E7 & E8 & _).
    rewrite E1, E6, E7, E8. cbn. intuition.
  - destruct (page s =? 1); cbn; auto.
  - destruct (page s =? _); cbn; auto.
  - cbn [timer setClock]. destruct (timer s) as [t|]; [|cbn; auto].
    destruct (due t <=? _); cbn [fst]; [|cbn; auto].
    destruct (runEffects_frame s
                (setDebouncedSearch (captured t)
                   (setTimer None (setClock (clock s + ms) s))))
      as (E1 & _ & _ & _ & _ & E6 & E7 & E8 & _).
    rewrite E1, E6, E7, E8. cbn. auto.
  - destruct (Hl He) as (_ & _ & _ & _ & _ & L1 & L2 & _). unfold settle.
    destruct (fetchCompanies r), (mounted s); cbn [negb]; auto.
    cbn [location industry sort companies setLoading setCompanies].
    rewrite L1, L2. repeat split; [now left|now left|exact H3].
  - cbn. auto.
Qed.

(** The invariant is kept by every event that can occur. *)
Lemma step_invariant (s : State) (e : Event) :
  invariant localeCompare s -> enabled localeCompare s e ->
  invariant localeCompare (fst (step localeCompare s e)).
Proof.
  intros Hi He. destruct (step_selection s e Hi He) as (S1 & S2 & S3).
  split.
  - now apply step_page_in_range.
  - now apply step_still_loading.
  - now apply step_timer.
  - exact S1.
  - exact S2.
  - exact S3.
Qed.

Lemma initial_invariant : invariant localeCompare initial.
Proof.
  split; cbn.
  - split; [lia|]. vm_compute. discriminate.
  - intros _. repeat split.
  - repeat split. lia.
  - now left.
  - now left.
  - now left.
Qed.

Lemma run_invariant (es : list Event) :
  forall s, invariant localeCompare s -> admissible localeCompare s es ->
            invariant localeCompare (fst (run localeCompare s es)).
Proof.
  induction es as [|e es IH]; intros s Hi Ha; [exact Hi|].
  destruct Ha as [He Ha]. rewrite run_cons. cbn [fst].
  apply IH; [now apply step_invariant|exact Ha].
Qed.

End InvariantTheory.

(** ** The pages *)

Lemma paginated_length (l : list Company.t) (p : Z) :
  1 <= p ->
  Z.of_nat (List.length (paginated l p))
  = Z.max 0 (Z.min PAGE_SIZE (Z.of_nat (List.length l) - PAGE_SIZE * (p - 1))).
Proof.
  intros Hp. unfold paginated, PAGE_SIZE.
  replace ((p - 1) * 8) with (Z.of_nat (Z.to_nat ((p - 1) * 8))) by lia.
  replace (p * 8) with (Z.of_nat (Z.to_nat (p * 8))) by lia.
  rewrite slice_nat by lia.
  rewrite length_firstn, length_skipn. lia.
Qed.

(** X6: every page before the last holds exactly 8 companies; the last one
    holds at most 8, and at least one unless there is no result at all; a
    page after the last is empty. *)
Theorem page_sizes (l : list Company.t) (p : Z) :
  1 <= p ->
  (p < totalPages l -> List.length (paginated l p) = 8%nat)
  /\ (p = totalPages l ->
      (List.length (paginated l p) <= 8)%nat
      /\ (l <> [] -> (1 <= List.length (paginated l p))%nat))
  /\ (totalPages l < p -> paginated l p = []).
Proof.
  intros Hp. pose proof (paginated_length l p Hp) as E.
  pose proof (ceilDiv_spec (Z.of_nat (List.length l)) 8) as Hc.
  unfold totalPages, PAGE_SIZE in *.
  split; [|split].
  - intros H. lia.
  - intros H. split; [lia|].
    intros Hne. destruct l as [|c l]; [congruence|]. cbn [List.length] in *. lia.
  - intros H. apply length_zero_iff_nil. lia.
Qed.

Lemma page_sizes_witness :
  List.length (paginated (repeat Sample.acme 20) 2) = 8%nat
  /\ paginated (repeat Sample.acme 20) 4 = [].
Proof.
  split.
  - apply (page_sizes (repeat Sample.acme 20) 2 ltac:(lia)). vm_compute. reflexivity.
  - apply (page_sizes (repeat Sample.acme 20) 4 ltac:(lia)). vm_compute. reflexivity.
Defined.

(** X7: in every state the component settles in, after an event and the
    effects it sets off, the current page is one of the pages:
    [1 <= page <= totalPages]. *)
Theorem page_always_in_range (localeCompare : string -> string -> Z)
    (es : list Event) :
  admissible localeCompare initial es ->
  1 <= page (fst (run localeCompare initial es))
    <= totalPages (filteredOf localeCompare (fst (run localeCompare initial es))).
Proof.
  intros Ha.
  apply (inv_page localeCompare _
           (run_invariant localeCompare es initial (initial_invariant localeCompare) Ha)).
Qed.

(** X8: in every state the component settles in, after an event and the
    effects it sets off, the page of companies is not empty unless there is
    no result at all. *)
Theorem shown_page_not_empty (localeCompare : string -> string -> Z)
    (es : list Event) :
  admissible localeCompare initial es ->
  filteredOf localeCompare (fst (run localeCompare initial es)) <> [] ->
  paginated (filteredOf localeCompare (fst (run localeCompare initial es)))
    (page (fst (run localeCompare initial es))) <> [].
Proof.
  intros Ha Hne.
  pose proof (inv_page localeCompare _
                (run_invariant localeCompare es initial
                   (initial_invariant localeCompare) Ha)) as Hp.
  set (s := fst (run localeCompare initial es)) in *.
  intros E.
  pose proof (paginated_length (filteredOf localeCompare s) (page s) ltac:(lia)) as Hlen.
  rewrite E in Hlen. cbn [List.length] in Hlen.
  pose proof (ceilDiv_spec (Z.of_nat (List.length (filteredOf localeCompare s))) 8) as Hc.
  unfold totalPages, PAGE_SIZE in *.
  destruct (filteredOf localeCompare s) as [|c l]; [congruence|].
  cbn [List.length] in *. lia.
Qed.

(** The render committed between a setter and the page-reset effect is
    another matter: there the new filter meets the old page.  From the
    second page of twelve companies, choosing "Delhi" leaves six: until the
    effect has run the page is 2 of 1, and empty. *)
Example render_before_the_page_reset :
  page (setLocation "Delhi" Sample.browsing) = 2
  /\ totalPages (filteredOf Sample.collate (setLocation "Delhi" Sample.browsing)) = 1
  /\ paginated (filteredOf Sample.collate (setLocation "Delhi" Sample.browsing))
       (page (setLocation "Delhi" Sample.browsing)) = []
  /\ page (fst (step Sample.collate Sample.browsing (LocationChosen "Delhi"))) = 1.
Proof. repeat split. Qed.

(** X9: in every state the component reaches while mounted, the text in
    the search box reaches the query pipeline once 300 ms pass without an
    event: the debounced search text is then the search text. *)
Theorem debounce_converges (localeCompare : string -> string -> Z)
    (es : list Event) (d : Z) :
  admissible localeCompare initial es ->
  mounted (fst (run localeCompare initial es)) = true ->
  300 <= d ->
  debouncedSearch (fst (step localeCompare (fst (run localeCompare initial es)) (Elapsed d)))
  = search (fst (run localeCompare initial es)).
Proof.
  intros Ha Hm Hd.
  pose proof (inv_timer localeCompare _
                (run_invariant localeCompare es initial
                   (initial_invariant localeCompare) Ha)) as Ht.
  set (s := fst (run localeCompare initial es)) in *.
  destruct (timer s) as [t|] eqn:Et.
  - destruct Ht as (_ & Hcap & Hdue).
    destruct (step_elapsed_due localeCompare s t d Et ltac:(lia)) as (_ & E & _).
    now rewrite E.
  - rewrite (step_elapsed_idle localeCompare s d Et). cbn. now apply Ht.
Qed.

(** X10: in every state the component reaches, each selector holds a value
    of its options: the location is "All" or the location of a company, the
    industry likewise, and the sort key is one of the four. *)
Theorem selection_always_an_option (localeCompare : string -> string -> Z)
    (es : list Event) :
  admissible localeCompare initial es ->
  In (location (fst (run localeCompare initial es)))
     (locations (companies (fst (run localeCompare initial es))))
  /\ In (industry (fst (run localeCompare initial es)))
        (industries (companies (fst (run localeCompare initial es))))
  /\ exists k, sort (fst (run localeCompare initial es)) = Spec.optionValue k.
Proof.
  intros Ha.
  pose proof (run_invariant localeCompare es initial
                (initial_invariant localeCompare) Ha) as [_ _ _ H1 H2 H3].
  split; [exact H1|]. split; [exact H2|].
  destruct H3 as [E|[E|[E|[E|[]]]]]; rewrite <- E.
  - now exists Spec.NameAsc.
  - now exists Spec.NameDesc.
  - now exists Spec.EmployeesDesc.
  - now exists Spec.EmployeesAsc.
Qed.

Lemma session_admissible : admissible Sample.collate initial Session.events.
Proof.
  vm_compute. repeat split; auto; try discriminate.
Qed.

Lemma page_always_in_range_witness :
  1 <= page (fst (run Sample.collate initial Session.events))
    <= totalPages (filteredOf Sample.collate (fst (run Sample.collate initial Session.events))).
Proof. exact (page_always_in_range Sample.collate Session.events session_admissible). Defined.

Lemma shown_page_not_empty_witness :
  paginated (filteredOf Sample.collate (fst (run Sample.collate initial Session.events)))
    (page (fst (run Sample.collate initial Session.events))) <> [].
Proof.
  apply (shown_page_not_empty Sample.collate Session.events session_admissible).
  vm_compute. discriminate.
Defined.

Lemma debounce_converges_witness :
  debouncedSearch
    (fst (step Sample.collate (fst (run Sample.collate initial Session.events))
            (Elapsed 300)))
  = "soft"%string.
Proof.
  apply (debounce_converges Sample.collate Session.events 300 session_admissible).
  - reflexivity.
  - lia.
Defined.

Lemma selection_always_an_option_witness :
  In (location (fst (run Sample.collate initial Session.events)))
     (locations (companies (fst (run Sample.collate initial Session.events)))).
Proof.
  exact (proj1 (selection_always_an_option Sample.collate Session.events
                  session_admissible)).
Defined.

(** ** Sorting and filtering *)

Lemma sorted_strictly {A : Type} (cmp : A -> A -> Z) (l : list A) :
  NoDup l -> (forall a b, In a l -> In b l -> cmp a b = 0 -> a = b) ->
  StronglySorted (fun a b => cmp a b <= 0) l ->
  StronglySorted (fun a b => cmp a b < 0) l.
Proof.
  intros Hn Hinj. induction 1 as [|a l Hs IH Ha]; [constructor|].
  inversion Hn as [|? ? Hnotin Hn']; subst. constructor.
  - apply IH; [assumption|]. intros x y Hx Hy. apply Hinj; now right.
  - apply Forall_forall. intros z Hz. rewrite Forall_forall in Ha.
    specialize (Ha z Hz). destruct (Z.eq_dec (cmp a z) 0) as [E|E]; [|lia].
    apply Hinj in E; [|now left|now right]. subst z. contradiction.
Qed.

Section SortFilterTheory.

Context {A : Type} (cmp : A -> A -> Z).
Hypothesis Hcmp : consistent cmp.

Lemma insert_first (x : A) (m : list A) :
  Forall (fun z => cmp x z <= 0) m -> JS.insert cmp x m = x :: m.
Proof.
  destruct 1 as [|z m Hz _]; [reflexivity|].
  cbn [JS.insert]. now destruct (Z.leb_spec (cmp x z) 0); [|lia].
Qed.

Lemma filter_insert (p : A -> bool) (x : A) (l : list A) :
  StronglySorted (fun a b => cmp a b <= 0) l ->
  filter p (JS.insert cmp x l)
  = if p x then JS.insert cmp x (filter p l) else filter p l.
Proof.
  induction 1 as [|y l Hs IH Hy].
  - cbn. now destruct (p x).
  - cbn [JS.insert]. destruct (Z.leb_spec (cmp x y) 0) as [Hxy|Hxy].
    + cbn [filter]. destruct (p x); [|reflexivity].
      symmetry. apply (insert_first x (if p y then y :: filter p l else filter p l)).
      assert (Hall : Forall (fun z => cmp x z <= 0) (filter p l)).
      { apply Forall_forall. intros z Hz. apply filter_In in Hz as [Hz _].
        rewrite Forall_forall in Hy.
        apply (cmp_trans cmp Hcmp x y z Hxy). now apply Hy. }
      destruct (p y); [now constructor|assumption].
    + cbn [filter]. rewrite IH. destruct (p y), (p x); try reflexivity.
      cbn [JS.insert]. now destruct (Z.leb_spec (cmp x y) 0); [lia|].
Qed.

(** Filtering the sorted array gives what sorting the filtered array gives:
    the sort never changes the order in which the kept elements come. *)
Lemma filter_sort (p : A -> bool) (l : list A) :
  filter p (JS.sort cmp l) = JS.sort cmp (filter p l).
Proof.
  induction l as [|x l IH]; [reflexivity|].
  cbn [JS.sort filter]. rewrite filter_insert by now apply sort_sorted.
  rewrite IH. now destruct (p x).
Qed.

Lemma StronglySorted_snoc (R : A -> A -> Prop) (m : list A) (a : A) :
  StronglySorted R m -> Forall (fun z => R z a) m -> StronglySorted R (m ++ [a]).
Proof.
  induction 1 as [|y m Hs IH Hy]; intros Ha; cbn.
  - repeat constructor.
  - inversion Ha as [|? ? Hya Ha']; subst. constructor; [now apply IH|].
    apply Forall_app. split; [assumption|now constructor].
Qed.

Lemma StronglySorted_rev (R : A -> A -> Prop) (l : list A) :
  StronglySorted R l -> StronglySorted (fun a b => R b a) (rev l).
Proof.
  induction 1 as [|a l Hs IH Ha]; cbn; [constructor|].
  apply StronglySorted_snoc; [assumption|].
  apply Forall_forall. intros z Hz. apply in_rev in Hz.
  rewrite Forall_forall in Ha. now apply Ha.
Qed.

Lemma strictly_sorted_unique (R : A -> A -> Prop) (l1 l2 : list A) :
  (forall a b, R a b -> R b a -> False) ->
  Permutation l1 l2 -> StronglySorted R l1 -> StronglySorted R l2 -> l1 = l2.
Proof.
  intros Hasym. revert l2. induction l1 as [|a t1 IH]; intros l2 Hp Hs1 Hs2.
  - now apply Permutation_nil in Hp.
  - destruct l2 as [|b t2].
    { apply Permutation_sym, Permutation_nil in Hp. discriminate. }
    inversion Hs1 as [|? ? Hs1' Ha]; subst.
    inversion Hs2 as [|? ? Hs2' Hb]; subst.
    assert (a = b) as <-.
    { assert (Hin1 : In b (a :: t1))
        by (eapply Permutation_in; [apply Permutation_sym, Hp|now left]).
      assert (Hin2 : In a (b :: t2)) by (eapply Permutation_in; [apply Hp|now left]).
      destruct Hin1 as [E|Hin1]; [exact E|].
      destruct Hin2 as [E|Hin2]; [now symmetry|].
      rewrite Forall_forall in Ha, Hb. exfalso.
      apply (Hasym a b); [now apply Ha|now apply Hb]. }
    f_equal. apply IH; try assumption. now apply Permutation_cons_inv in Hp.
Qed.

(** When no two elements compare equal, sorting in the other direction
    gives the reverse. *)
Lemma sort_flip_rev (l : list A) :
  NoDup l -> (forall a b, In a l -> In b l -> cmp a b = 0 -> a = b) ->
  JS.sort (fun a b => cmp b a) l = rev (JS.sort cmp l).
Proof.
  intros Hn Hinj.
  pose proof (consistent_flip cmp Hcmp) as Hflip.
  apply (strictly_sorted_unique (fun a b => cmp b a < 0)).
  - intros a b H1 H2. pose proof (cmp_flip cmp Hcmp a b). lia.
  - eapply perm_trans; [apply Permutation_sym, (sort_perm (fun a b => cmp b a))|].
    eapply perm_trans; [apply (sort_perm cmp)|apply Permutation_rev].
  - apply (sorted_strictly (fun a b => cmp b a)); [| |now apply sort_sorted].
    + eapply Permutation_NoDup; [apply (sort_perm (fun a b => cmp b a))|assumption].
    + intros a b Ha Hb E. symmetry. revert E. apply Hinj;
        (eapply Permutation_in;
         [apply Permutation_sym, (sort_perm (fun a b => cmp b a))|assumption]).
  - apply (StronglySorted_rev (fun a b => cmp a b < 0)).
    apply sorted_strictly; [| |now apply sort_sorted].
    + eapply Permutation_NoDup; [apply (sort_perm cmp)|assumption].
    + intros a b Ha Hb. apply Hinj;
        (eapply Permutation_in; [apply Permutation_sym, (sort_perm cmp)|assumption]).
Qed.

End SortFilterTheory.

Lemma comparator_opposite (localeCompare : string -> string -> Z)
    (k : Spec.SortKey) (a b : Company.t) :
  Spec.comparator localeCompare (opposite k) a b = Spec.comparator localeCompare k b a.
Proof. now destruct k. Qed.

Lemma sort_ext {A : Type} (f g : A -> A -> Z) (l : list A) :
  (forall a b, f a b = g a b) -> JS.sort f l = JS.sort g l.
Proof.
  intros H. induction l as [|x l IH]; [reflexivity|].
  cbn [JS.sort]. rewrite IH. generalize (JS.sort g l). intros m.
  induction m as [|y m IHm]; [reflexivity|].
  cbn [JS.insert]. now rewrite H, IHm.
Qed.

(** X11: for a consistent [localeCompare] and each of the four sort keys,
    narrowing (by the search text, the location or the industry) and sorting
    commute: the output of the pipeline is what the narrowing keeps of the
    whole collection sorted, in the same order. *)
Theorem narrowing_keeps_order (localeCompare : string -> string -> Z)
    (k : Spec.SortKey) (cs : list Company.t) (text loc ind : string) :
  consistent localeCompare ->
  filtered localeCompare cs text loc ind (Spec.optionValue k)
  = selected (filtered localeCompare cs "" "All" "All" (Spec.optionValue k))
      text loc ind.
Proof.
  intros Hc. pose proof (comparator_consistent localeCompare k Hc) as Hk.
  rewrite !filtered_selected_sortBy, !sortBy_optionValue, !selected_trim.
  cbn [JS.trim JS.trimStart JS.trimEnd JS.truthy String.eqb negb].
  unfold Spec.industryStep, Spec.locationStep. cbn [String.eqb Ascii.eqb].
  change (if ("All" =? "All")%string then ?x else _) with x.
  destruct (JS.truthy (JS.trim text)), (loc =? "All")%string, (ind =? "All")%string;
    now rewrite ?(filter_sort _ Hk).
Qed.

Lemma narrowing_keeps_order_witness :
  filtered Sample.collate Sample.directory "soft" "Pune" "All" "employees-asc"
  = selected [Sample.globex; Sample.initech; Sample.acme; Sample.hooli]
      "soft" "Pune" "All".
Proof.
  exact (narrowing_keeps_order Sample.collate Spec.EmployeesAsc Sample.directory
           "soft" "Pune" "All" defaultCompare_consistent).
Defined.

(** X12: for a consistent [localeCompare], when no two of the companies the
    filters leave compare equal under a key, the opposite key gives the same
    companies in the reverse order. *)
Theorem opposite_key_reverses (localeCompare : string -> string -> Z)
    (k : Spec.SortKey) (cs : list Company.t) (text loc ind : string) :
  consistent localeCompare ->
  NoDup (selected cs text loc ind) ->
  (forall a b, In a (selected cs text loc ind) -> In b (selected cs text loc ind) ->
               Spec.comparator localeCompare k a b = 0 -> a = b) ->
  filtered localeCompare cs text loc ind (Spec.optionValue (opposite k))
  = rev (filtered localeCompare cs text loc ind (Spec.optionValue k)).
Proof.
  intros Hc Hn Hinj. pose proof (comparator_consistent localeCompare k Hc) as Hk.
  rewrite !filtered_selected_sortBy, !sortBy_optionValue.
  rewrite <- (sort_flip_rev _ Hk _ Hn Hinj).
  apply sort_ext. apply comparator_opposite.
Qed.

Lemma opposite_key_reverses_witness :
  filtered Sample.collate Sample.directory "" "All" "All" "name-desc"
  = rev (filtered Sample.collate Sample.directory "" "All" "All" "name-asc").
Proof.
  apply (opposite_key_reverses Sample.collate Spec.NameAsc Sample.directory
           "" "All" "All" defaultCompare_consistent).
  - repeat constructor; cbn; intuition discriminate.
  - intros a b Ha Hb E. cbn in Ha, Hb.
    destruct Ha as [<-|[<-|[<-|[<-|[]]]]], Hb as [<-|[<-|[<-|[<-|[]]]]];
      try reflexivity; vm_compute in E; discriminate.
Defined.

(** With ties the opposite key does not reverse: the sort is stable in
    both directions, so the companies that compare equal keep their order. *)
Example opposite_key_with_ties :
  filtered Sample.collate Sample.directory "" "All" "All" "employees-asc"
  = [Sample.globex; Sample.initech; Sample.acme; Sample.hooli]
  /\ filtered Sample.collate Sample.directory "" "All" "All" "employees-desc"
     = [Sample.hooli; Sample.acme; Sample.globex; Sample.initech].
Proof. split; reflexivity. Qed.

(** ** The options and the pipeline *)

Lemma in_options (field : Company.t -> string) (cs : list Company.t) (v : string) :
  In v ("All"%string :: JS.sort JS.defaultCompare (JS.setFrom (map field cs))) ->
  v <> "All"%string ->
  exists c, In c cs /\ field c = v.
Proof.
  intros [E|H] Hv; [congruence|].
  now apply (option_list field cs) in H.
Qed.

(** X13: an option of the location selector other than "All", chosen with
    a blank search text and the industry on "All", never gives an empty
    result; and so for an option of the industry selector. *)
Theorem option_selects_something (localeCompare : string -> string -> Z)
    (cs : list Company.t) (text key v : string) :
  v <> "All"%string ->
  Spec.allWhiteSpace text = true ->
  (In v (locations cs) -> filtered localeCompare cs text v "All" key <> [])
  /\ (In v (industries cs) -> filtered localeCompare cs text "All" v key <> []).
Proof.
  intros Hv Hw.
  assert (Hne : (v =? "All")%string = false) by now apply String.eqb_neq.
  split; intros Hin.
  - destruct (in_options Company.location cs v Hin Hv) as (c & Hc & E).
    assert (H : In c (filtered localeCompare cs text v "All" key)).
    { rewrite filtered_selected_sortBy, selected_trim, (trim_allWhiteSpace text Hw).
      eapply Permutation_in; [apply sortBy_perm|].
      unfold Spec.industryStep, Spec.locationStep. rewrite Hne. cbn.
      apply filter_In. split; [assumption|]. now apply String.eqb_eq. }
    intros E0. now rewrite E0 in H.
  - destruct (in_options Company.industry cs v Hin Hv) as (c & Hc & E).
    assert (H : In c (filtered localeCompare cs text "All" v key)).
    { rewrite filtered_selected_sortBy, selected_trim, (trim_allWhiteSpace text Hw).
      eapply Permutation_in; [apply sortBy_perm|].
      unfold Spec.industryStep, Spec.locationStep. rewrite Hne. cbn.
      apply filter_In. split; [assumption|]. now apply String.eqb_eq. }
    intros E0. now rewrite E0 in H.
Qed.

Lemma option_selects_something_witness :
  filtered Sample.collate Sample.directory " " "Delhi" "All" "name-asc" <> [].
Proof.
  apply (option_selects_something Sample.collate Sample.directory " " "name-asc" "Delhi").
  - discriminate.
  - reflexivity.
  - vm_compute. auto.
Defined.

Lemma options_NoDup (field : Company.t -> string) (cs : list Company.t) :
  NoDup ("All"%string :: JS.sort JS.defaultCompare (JS.setFrom (map field cs)))
  <-> forall c, In c cs -> field c <> "All"%string.
Proof.
  destruct (option_list field cs) as (Hn & _ & Hin). split.
  - intros H c Hc E. inversion H as [|? ? Hnot _]; subst.
    apply Hnot, Hin. eauto.
  - intros H. constructor; [|exact Hn].
    intros Hall. apply Hin in Hall as (c & Hc & E). now apply (H c).
Qed.

(** X14: the sentinel "All" is not told apart from a value of the data: the
    location options repeat a value exactly when a company has the location
    "All", and the industry options exactly when a company has the industry
    "All". *)
Theorem options_repeat_only_the_sentinel (cs : list Company.t) :
  (NoDup (locations cs) <-> forall c, In c cs -> Company.location c <> "All"%string)
  /\ (NoDup (industries cs) <-> forall c, In c cs -> Company.industry c <> "All"%string).
Proof.
  split; [apply (options_NoDup Company.location)|apply (options_NoDup Company.industry)].
Qed.

(** ** What the search matches *)

Lemma lowerUnit_idem (c : ascii) : JS.lowerUnit (JS.lowerUnit c) = JS.lowerUnit c.
Proof. destruct c as [[] [] [] [] [] [] [] []]; reflexivity. Qed.

Lemma isWhiteSpace_lowerUnit (c : ascii) :
  JS.isWhiteSpace (JS.lowerUnit c) = JS.isWhiteSpace c.
Proof. destruct c as [[] [] [] [] [] [] [] []]; reflexivity. Qed.

Lemma toLowerCase_idem (s : string) :
  JS.toLowerCase (JS.toLowerCase s) = JS.toLowerCase s.
Proof.
  induction s as [|c s IH]; [reflexivity|].
  cbn [JS.toLowerCase]. now rewrite lowerUnit_idem, IH.
Qed.

Lemma trimStart_toLowerCase (s : string) :
  JS.trimStart (JS.toLowerCase s) = JS.toLowerCase (JS.trimStart s).
Proof.
  induction s as [|c s IH]; [reflexivity|].
  cbn [JS.toLowerCase JS.trimStart]. rewrite isWhiteSpace_lowerUnit.
  now destruct (JS.isWhiteSpace c).
Qed.

Lemma trimEnd_toLowerCase (s : string) :
  JS.trimEnd (JS.toLowerCase s) = JS.toLowerCase (JS.trimEnd s).
Proof.
  induction s as [|c s IH]; [reflexivity|].
  cbn [JS.toLowerCase JS.trimEnd]. rewrite IH, isWhiteSpace_lowerUnit.
  destruct (JS.trimEnd s); cbn [JS.toLowerCase]; [|reflexivity].
  now destruct (JS.isWhiteSpace c).
Qed.

(** Trimming and lower-casing commute: no letter is white space. *)
Lemma trim_toLowerCase (s : string) :
  JS.trim (JS.toLowerCase s) = JS.toLowerCase (JS.trim s).
Proof. unfold JS.trim. now rewrite trimStart_toLowerCase, trimEnd_toLowerCase. Qed.

Lemma truthy_toLowerCase (s : string) : JS.truthy (JS.toLowerCase s) = JS.truthy s.
Proof. now destruct s. Qed.

(** X15: the search does not tell the cases of the search text apart: two
    texts with the same lower-case form give the same output. *)
Theorem search_ignores_case (localeCompare : string -> string -> Z)
    (cs : list Company.t) (text1 text2 loc ind key : string) :
  JS.toLowerCase text1 = JS.toLowerCase text2 ->
  filtered localeCompare cs text1 loc ind key
  = filtered localeCompare cs text2 loc ind key.
Proof.
  intros E. rewrite !filtered_selected_sortBy, !selected_trim.
  assert (Eq : JS.toLowerCase (JS.trim text1) = JS.toLowerCase (JS.trim text2))
    by now rewrite <- !trim_toLowerCase, E.
  rewrite <- (truthy_toLowerCase (JS.trim text1)),
          <- (truthy_toLowerCase (JS.trim text2)), Eq.
  reflexivity.
Qed.

Lemma search_ignores_case_witness :
  filtered Sample.collate Sample.directory "TeCh" "All" "All" "name-asc"
  = filtered Sample.collate Sample.directory " tEcH" "All" "All" "name-asc".
Proof.
  transitivity (filtered Sample.collate Sample.directory "tEcH" "All" "All" "name-asc").
  - apply (search_ignores_case Sample.collate Sample.directory "TeCh" "tEcH").
    reflexivity.
  - reflexivity.
Defined.

(** X16: which companies are shown.  A company is in the output of the
    pipeline exactly when it is in the collection, the trimmed search text
    is empty or its lower-case form occurs in the lower-case name,
    description or industry, the location filter is "All" or the company's
    location, and the industry filter is "All" or the company's industry. *)
Theorem shown_iff (localeCompare : string -> string -> Z)
    (cs : list Company.t) (text loc ind key : string) (c : Company.t) :
  In c (filtered localeCompare cs text loc ind key)
  <-> In c cs
      /\ (JS.trim text = EmptyString
          \/ occursIn (JS.toLowerCase (JS.trim text)) (JS.toLowerCase (Company.name c))
          \/ (exists d, Company.description c = Some d
                        /\ occursIn (JS.toLowerCase (JS.trim text)) (JS.toLowerCase d))
          \/ occursIn (JS.toLowerCase (JS.trim text))
                      (JS.toLowerCase (Company.industry c)))
      /\ (loc = "All"%string \/ Company.location c = loc)
      /\ (ind = "All"%string \/ Company.industry c = ind).
Proof.
  rewrite filtered_selected_sortBy.
  assert (Hperm : In c (sortBy localeCompare key (selected cs text loc ind))
                  <-> In c (selected cs text loc ind)).
  { split; apply Permutation_in;
      [apply Permutation_sym, sortBy_perm|apply sortBy_perm]. }
  rewrite Hperm, selected_trim. clear Hperm.
  assert (Hind : forall l, In c (Spec.industryStep ind l)
                           <-> In c l /\ (ind = "All"%string \/ Company.industry c = ind)).
  { intros l. unfold Spec.industryStep.
    destruct (String.eqb_spec ind "All") as [E|E].
    - tauto.
    - rewrite filter_In, String.eqb_eq. tauto. }
  assert (Hloc : forall l, In c (Spec.locationStep loc l)
                           <-> In c l /\ (loc = "All"%string \/ Company.location c = loc)).
  { intros l. unfold Spec.locationStep.
    destruct (String.eqb_spec loc "All") as [E|E].
    - tauto.
    - rewrite filter_In, String.eqb_eq. tauto. }
  rewrite Hind, Hloc.
  destruct (JS.truthy (JS.trim text)) eqn:Et.
  - assert (Hne : JS.trim text <> EmptyString).
    { intros E. rewrite E in Et. discriminate. }
    rewrite filter_In, (searchMatches_iff _ c (toLowerCase_nonempty _ Hne)). tauto.
  - apply truthy_false_iff in Et. tauto.
Qed.

(** ** The views over a run *)

Section ViewTheory.

Variable localeCompare : string -> string -> Z.

Lemma render_error_iff (s : State) (m : string) :
  render localeCompare s = ErrorView m
  <-> loading s = false /\ error s = Some m /\ JS.truthy m = true.
Proof.
  unfold render. destruct (loading s).
  - split; [discriminate|]. intros (H & _). discriminate.
  - destruct (error s) as [m'|].
    + destruct (JS.truthy m') eqn:E.
      * split; [intros [= <-]; auto|]. intros (_ & [= <-] & _). reflexivity.
      * split; [discriminate|]. intros (_ & [= <-] & H). congruence.
    + split; [discriminate|]. intros (_ & H & _). discriminate.
Qed.

Lemma step_keeps_error (s : State) (e : Event) :
  (exists m, render localeCompare s = ErrorView m) ->
  exists m, render localeCompare (fst (step localeCompare s e)) = ErrorView m.
Proof.
  intros (m & H). apply render_error_iff in H as (Hl & He & Ht).
  assert (Hframe : forall n, loading n = loading s -> error n = error s ->
                             exists m', render localeCompare (runEffects s n)
                                        = ErrorView m').
  { intros n E1 E2. exists m. apply render_error_iff.
    destruct (runEffects_frame s n) as (_ & F2 & F3 & _).
    rewrite F2, F3, E1, E2. auto. }
  destruct e; cbn [step fst]; try (now apply Hframe).
  - exists m. apply render_error_iff. destruct (page s =? 1); cbn; auto.
  - exists m. apply render_error_iff. destruct (page s =? _); cbn; auto.
  - cbn [timer setClock]. destruct (timer s) as [t|].
    + destruct (due t <=? _); cbn [fst]; [now apply Hframe|].
      exists m. apply render_error_iff. cbn. auto.
    + exists m. apply render_error_iff. cbn. auto.
  - unfold settle. destruct (fetchCompanies r) as [data|message], (mounted s);
      cbn [negb].
    + exists m. apply render_error_iff. cbn. auto.
    + exists m. apply render_error_iff. auto.
    + exists (if JS.truthy message then message else "Unknown error"%string).
      apply render_error_iff. cbn. repeat split.
      destruct (JS.truthy message) eqn:E; [exact E|reflexivity].
    + exists m. apply render_error_iff. auto.
  - exists m. apply render_error_iff. cbn. auto.
Qed.

(** X17: the error view is final.  Once it is shown, whatever the events
    that follow, an error view is shown: nothing clears the error, and
    nothing requests the collection again. *)
Theorem error_is_final (s : State) (m : string) (es : list Event) :
  render localeCompare s = ErrorView m ->
  (exists m', render localeCompare (fst (run localeCompare s es)) = ErrorView m')
  /\ forall url, ~ In (Fetch url) (snd (run localeCompare s es)).
Proof.
  intros H. assert (He : exists m', render localeCompare s = ErrorView m') by eauto.
  clear H. revert s He. induction es as [|e es IH]; intros s He.
  - split; [exact He|]. intros url [].
  - rewrite run_cons. cbn [fst snd].
    destruct (IH _ (step_keeps_error s e He)) as [H1 H2]. split; [exact H1|].
    intros url Hin. apply in_app_or in Hin as [Hin|Hin]; [|now apply (H2 url)].
    destruct e; cbn [step snd] in Hin;
      repeat match type of Hin with
             | context [if ?b then _ else _] => destruct b
             | context [match timer ?x with _ => _ end] => destruct (timer x)
             end;
      cbn in Hin; intuition discriminate.
Qed.

(** X18: until the request settles the loading view is shown: no other
    event ends it. *)
Theorem loading_until_settled (s : State) (es : list Event) :
  loading s = true ->
  (forall r, ~ In (FetchSettled r) es) ->
  render localeCompare (fst (run localeCompare s es)) = LoadingView.
Proof.
  revert s. induction es as [|e es IH]; intros s Hl Hno.
  - cbn. unfold render. now rewrite Hl.
  - rewrite run_cons. cbn [fst]. apply IH.
    + destruct e; cbn [step fst];
        try (destruct (runEffects_frame s (setSearch value s)) as (_ & F & _);
             rewrite F; exact Hl);
        try (destruct (runEffects_frame s (setLocation value s)) as (_ & F & _);
             rewrite F; exact Hl);
        try (destruct (runEffects_frame s (setIndustry value s)) as (_ & F & _);
             rewrite F; exact Hl);
        try (destruct (runEffects_frame s (setSort value s)) as (_ & F & _);
             rewrite F; exact Hl).
      * destruct (page s =? 1); exact Hl.
      * destruct (page s =? _); exact Hl.
      * cbn [timer setClock]. destruct (timer s) as [t|]; [|exact Hl].
        destruct (due t <=? _); cbn [fst]; [|exact Hl].
        destruct (runEffects_frame s
                    (setDebouncedSearch (captured t)
                       (setTimer None (setClock (clock s + ms) s)))) as (_ & F & _).
        rewrite F. exact Hl.
      * exfalso. apply (Hno r). now left.
      * exact Hl.
    + intros r Hr. apply (Hno r). now right.
Qed.

(** X19: the Next button, pressed [n] times, leads [n] pages on and stops
    at the last page; the Prev button leads back and stops at the first: so
    every page from 1 to [totalPages] can be reached. *)
Theorem buttons_walk_the_pages (s : State) (n : nat) :
  1 <= page s <= totalPages (filteredOf localeCompare s) ->
  page (fst (run localeCompare s (repeat NextClicked n)))
  = Z.min (totalPages (filteredOf localeCompare s)) (page s + Z.of_nat n)
  /\ page (fst (run localeCompare s (repeat PrevClicked n)))
     = Z.max 1 (page s - Z.of_nat n).
Proof.
  revert s. induction n as [|n IH]; intros s Hp.
  - cbn [repeat run fst]. lia.
  - cbn [repeat]. rewrite !run_cons. cbn [fst]. split.
    + cbn [step].
      destruct (Z.eqb_spec (page s) (totalPages (filteredOf localeCompare s)))
        as [E|E]; cbn [fst].
      * rewrite (proj1 (IH s Hp)). lia.
      * assert (Hp' : 1 <= page (setPage (Z.min (totalPages (filteredOf localeCompare s))
                                            (page s + 1)) s)
                      <= totalPages (filteredOf localeCompare
                                       (setPage (Z.min (totalPages (filteredOf localeCompare s))
                                                   (page s + 1)) s)))
          by (rewrite filteredOf_setPage; cbn [page setPage]; lia).
        rewrite (proj1 (IH _ Hp')).
        rewrite filteredOf_setPage. cbn [page setPage]. lia.
    + cbn [step]. destruct (Z.eqb_spec (page s) 1) as [E|E]; cbn [fst].
      * rewrite (proj2 (IH s Hp)). lia.
      * assert (Hp' : 1 <= page (setPage (Z.max 1 (page s - 1)) s)
                      <= totalPages (filteredOf localeCompare
                                       (setPage (Z.max 1 (page s - 1)) s)))
          by (rewrite filteredOf_setPage; cbn [page setPage]; lia).
        rewrite (proj2 (IH _ Hp')).
        cbn [page setPage]. lia.
Qed.

End ViewTheory.

Lemma error_is_final_witness :
  exists m',
    render Sample.collate
      (fst (run Sample.collate
              (fst (step Sample.collate initial (FetchSettled (Responded 503 (Json [])))))
              [Typed "a"; Elapsed 400; NextClicked;
               FetchSettled (Responded 200 (Json Sample.directory))]))
    = ErrorView m'.
Proof.
  refine (proj1 (error_is_final Sample.collate
                   (fst (step Sample.collate initial
                           (FetchSettled (Responded 503 (Json [])))))
                   "Failed to load companies: 503"
                   [Typed "a"; Elapsed 400; NextClicked;
                    FetchSettled (Responded 200 (Json Sample.directory))] _)).
  reflexivity.
Defined.

Lemma loading_until_settled_witness :
  render Sample.collate
    (fst (run Sample.collate initial [Elapsed 300; Typed "a"; Elapsed 5000; Unmounted]))
  = LoadingView.
Proof.
  apply (loading_until_settled Sample.collate initial
           [Elapsed 300; Typed "a"; Elapsed 5000; Unmounted]).
  - reflexivity.
  - intros r H. cbn in H. intuition discriminate.
Defined.

Lemma buttons_walk_the_pages_witness :
  page (fst (run Sample.collate Sample.browsing (repeat PrevClicked 5))) = 1.
Proof.
  refine (proj2 (buttons_walk_the_pages Sample.collate Sample.browsing 5 _)).
  vm_compute. split; discriminate.
Defined.

Lemma typed_results (localeCompare : string -> string -> Z) (s : State) (v : string) :
  filteredOf localeCompare (fst (step localeCompare s (Typed v)))
  = filteredOf localeCompare s
  /\ page (fst (step localeCompare s (Typed v))) = page s
  /\ render localeCompare (fst (step localeCompare s (Typed v)))
     = render localeCompare s.
Proof.
  cbn [step fst].
  destruct (runEffects_frame s (setSearch v s))
    as (F1 & F2 & F3 & _ & F5 & F6 & F7 & F8 & _).
  assert (Hf : filteredOf localeCompare (runEffects s (setSearch v s))
               = filteredOf localeCompare s)
    by (rewrite filteredOf_runEffects; reflexivity).
  assert (Hp : page (runEffects s (setSearch v s)) = page s).
  { unfold runEffects, pageResetEffect.
    destruct (debounceEffect_inputs s (setSearch v s)) as (E1 & E2 & E3 & E4 & E5).
    rewrite E1, E2, E3, E4. cbn. rewrite !String.eqb_refl. cbn. exact E5. }
  split; [exact Hf|]. split; [exact Hp|].
  unfold render. now rewrite F2, F3, Hf, Hp.
Qed.

(** X21: while the user types and waits, the results change only when the
    debounce timer runs: over typing and waiting in which the debounced
    search text is never set, the filtered array and the page are as they
    were, and so is what they decide of the view (which of the three views,
    the companies of the page, the page and the number of pages).  The
    search box, which shows the text typed, is not part of this. *)
Theorem view_waits_for_the_debounce (localeCompare : string -> string -> Z)
    (es : list Event) :
  forall s,
    Forall typingOrWaiting es ->
    snd (run localeCompare s es) = [] ->
    filteredOf localeCompare (fst (run localeCompare s es)) = filteredOf localeCompare s
    /\ page (fst (run localeCompare s es)) = page s
    /\ render localeCompare (fst (run localeCompare s es)) = render localeCompare s.
Proof.
  induction es as [|e es IH]; intros s Hall Hout; [repeat split|].
  inversion Hall as [|? ? He Hall']; subst.
  rewrite run_cons in Hout |- *. cbn [fst snd] in Hout |- *.
  apply app_eq_nil in Hout as [Ho1 Ho2].
  destruct (IH _ Hall' Ho2) as (I1 & I2 & I3). rewrite I1, I2, I3.
  destruct e; cbn in He; try contradiction.
  - apply typed_results.
  - cbn [step] in Ho1 |- *. cbn [timer setClock] in Ho1 |- *.
    destruct (timer s) as [t|]; [|repeat split].
    destruct (due t <=? _); [discriminate|repeat split].
Qed.

Lemma view_waits_for_the_debounce_witness :
  render Sample.collate
    (fst (run Sample.collate Sample.browsing
            [Typed "g"; Elapsed 200; Typed "gl"; Elapsed 299]))
  = render Sample.collate Sample.browsing.
Proof.
  refine (proj2 (proj2 (view_waits_for_the_debounce Sample.collate
                          [Typed "g"; Elapsed 200; Typed "gl"; Elapsed 299]
                          Sample.browsing _ _))).
  - repeat constructor.
  - reflexivity.
Defined.

(** ** The output as a part of the collection *)

Lemma filter_split {A : Type} (p : A -> bool) (l : list A) :
  Permutation l (filter p l ++ filter (fun x => negb (p x)) l).
Proof.
  induction l as [|x l IH]; [constructor|].
  cbn [filter]. destruct (p x); cbn [negb app].
  - now constructor.
  - eapply perm_trans; [apply perm_skip, IH|]. apply Permutation_middle.
Qed.

Lemma part_filter {A : Type} (p : A -> bool) (l m : list A) :
  (exists rest, Permutation l (m ++ rest)) ->
  exists rest, Permutation l (filter p m ++ rest).
Proof.
  intros (rest & H). exists (filter (fun x => negb (p x)) m ++ rest).
  rewrite app_assoc. eapply perm_trans; [exact H|].
  apply Permutation_app_tail, filter_split.
Qed.

Lemma selected_part (cs : list Company.t) (text loc ind : string) :
  exists rest, Permutation cs (selected cs text loc ind ++ rest).
Proof.
  rewrite selected_trim. unfold Spec.industryStep, Spec.locationStep.
  assert (H0 : exists rest, Permutation cs (cs ++ rest))
    by (exists []; now rewrite app_nil_r).
  destruct (JS.truthy (JS.trim text)), (loc =? "All")%string, (ind =? "All")%string;
    repeat apply part_filter; exact H0.
Qed.

(** X20: the output of the pipeline is a rearrangement of a part of the
    collection: no company is shown more often than the collection has it.
    So it is no longer than the collection, and when the ids of the
    collection are distinct, so are the ids of the output. *)
Theorem output_is_a_part (localeCompare : string -> string -> Z)
    (cs : list Company.t) (text loc ind key : string) :
  (exists rest,
      Permutation cs (filtered localeCompare cs text loc ind key ++ rest))
  /\ (List.length (filtered localeCompare cs text loc ind key) <= List.length cs)%nat
  /\ (NoDup (map Company.id cs) ->
      NoDup (map Company.id (filtered localeCompare cs text loc ind key))).
Proof.
  assert (H : exists rest,
             Permutation cs (filtered localeCompare cs text loc ind key ++ rest)).
  { destruct (selected_part cs text loc ind) as (rest & H). exists rest.
    rewrite filtered_selected_sortBy. eapply perm_trans; [exact H|].
    apply Permutation_app_tail, sortBy_perm. }
  split; [exact H|]. destruct H as (rest & H). split.
  - apply Permutation_length in H. rewrite length_app in H. lia.
  - intros Hn. apply (Permutation_map Company.id) in H. rewrite map_app in H.
    apply (Permutation_NoDup H) in Hn. now apply NoDup_app_remove_r in Hn.
Qed.

Lemma output_is_a_part_witness :
  NoDup (map Company.id
           (filtered Sample.collate Sample.directory "" "Pune" "All" "name-desc")).
Proof.
  refine (proj2 (proj2 (output_is_a_part Sample.collate Sample.directory
                          "" "Pune" "All" "name-desc")) _).
  repeat constructor; cbn; intuition discriminate.
Defined.

(** ** Concrete runs *)

Example trim_run : JS.trim "  ab c  " = "ab c"%string.
Proof. reflexivity. Qed.

Example toLowerCase_run : JS.toLowerCase "Tech & AI" = "tech & ai"%string.
Proof. reflexivity. Qed.

Example includes_run :
  JS.includes "hello" "ell" = true /\ JS.includes "hello" "elo" = false
  /\ JS.includes "hello" "" = true.
Proof. repeat split. Qed.

Example slice_run :
  JS.slice [1; 2; 3; 4; 5] 1 3 = [2; 3] /\ JS.slice [1; 2; 3; 4; 5] (-2) 9 = [4; 5]
  /\ JS.slice [1; 2; 3; 4; 5] 8 16 = [].
Proof. repeat split. Qed.

Example setFrom_run :
  JS.setFrom ["Pune"; "Delhi"; "Pune"]%string = ["Pune"; "Delhi"]%string.
Proof. reflexivity. Qed.

Example numberToString_run :
  JS.numberToString 404 = "404"%string /\ JS.numberToString 0 = "0"%string.
Proof. split; reflexivity. Qed.

Example locations_run :
  locations Sample.directory = ["All"; "Delhi"; "Pune"]%string.
Proof. reflexivity. Qed.

(** The example of the specification: a search for "tech" with the industry
    "Software" keeps the companies that match both. *)
Example filtered_run :
  filtered Sample.collate
    [Sample.acme; Sample.globex;
     Company.mk 5 "Techno" "Software" "Goa" 7 None "https://techno.example";
     Company.mk 6 "Vortech" "Software" "Goa" 3 None "https://vortech.example"]
    "tech" "All" "Software" "employees-asc"
  = [Company.mk 6 "Vortech" "Software" "Goa" 3 None "https://vortech.example";
     Company.mk 5 "Techno" "Software" "Goa" 7 None "https://techno.example"].
Proof. reflexivity. Qed.

Example totalPages_run :
  totalPages [] = 1 /\ totalPages (repeat Sample.acme 8) = 1
  /\ totalPages (repeat Sample.acme 9) = 2.
Proof. repeat split. Qed.

